(** * The message-send pipeline of the chat client: cache, dispatcher, race

    A shallow embedding of [src/api/openai.js] ([sendMessage] and its
    module-level [messageCache]), of [addMessage] from
    [src/context/ChatContext.js] and of [handleSend] from
    [src/components/Chat.js] and [src/components/InputBox.js].

    The program is asynchronous: [sendMessage] suspends at
    [await api.post(...)], [handleSend] suspends at
    [await Promise.race([...])], and [setTimeout] callbacks run later.  The
    embedding makes the JavaScript event loop explicit: a [World] holds the
    module state, the React state and the list of pending tasks (timer
    callbacks and network completions); [fire] runs one task and [advance]
    lets time pass, running every task that falls due, in deadline order.

    Time is counted in milliseconds.  A task runs at its deadline, tasks with
    the same deadline run in the order of their creation, and the program is
    called (the user presses send, a caller calls [sendMessage]) between
    tasks, once every task that is due has run. *)

From Stdlib Require Import QArith_base.
From stdpp Require Import gmap strings pretty list fin_maps.

Local Open Scope string_scope.
Local Open Scope list_scope.
Local Open Scope N_scope.
Local Set Warnings "-register-all,-clear-no-such-hyp".

(** ** JavaScript values and errors *)

(** A value as [JSON.parse] produces it, plus [undefined], the result of
    reading a property that is not there.  Strings are sequences of 8-bit
    code units; numbers are kept as integers, the program never looks into
    one. *)
Inductive Value :=
| VUndefined
| VNull
| VBool (b : bool)
| VNum (n : Z)
| VStr (s : string)
| VArr (xs : list Value)
| VObj (fields : list (string * Value)).

Inductive Error :=
| AxiosError (status : option N)   (* rejected by the transport; [None]: no response at all *)
| TypeError                        (* property read on [undefined] or [null] *)
| PlainError (message : string).   (* [new Error(message)] *)

(** The outcome of evaluating code that may throw. *)
Inductive Completion (A : Type) :=
| Normal (a : A)
| Throw (e : Error).
Arguments Normal {A} a.
Arguments Throw {A} e.

#[global] Instance Completion_bind : MBind Completion := λ A B k c,
  match c with
  | Normal a => k a
  | Throw e => Throw e
  end.

(** The property names that the program reads from a response. *)
Inductive PropName := p_choices | p_0 | p_message | p_content.

Definition prop_key (p : PropName) : string :=
  match p with
  | p_choices => "choices"
  | p_0 => "0"
  | p_message => "message"
  | p_content => "content"
  end.

(** An own property of a parsed object (its keys are distinct). *)
Fixpoint own_property (key : string) (fields : list (string * Value)) : Value :=
  match fields with
  | [] => VUndefined
  | (k, v) :: rest => if String.eqb k key then v else own_property key rest
  end.

(** [v[p]] for the four names above: a [TypeError] on [undefined] and
    [null]; an own property of an object; element 0 of an array and the first
    character of a string for [p_0]; [undefined] otherwise. *)
Definition get (v : Value) (p : PropName) : Completion Value :=
  match v with
  | VUndefined | VNull => Throw TypeError
  | VObj fields => Normal (own_property (prop_key p) fields)
  | VArr xs =>
      match p, xs with
      | p_0, x :: _ => Normal x
      | _, _ => Normal VUndefined
      end
  | VStr s =>
      match p, s with
      | p_0, String c _ => Normal (VStr (String c ""))
      | _, _ => Normal VUndefined
      end
  | VBool _ | VNum _ => Normal VUndefined
  end.

(** ** The transport: what the environment answers to one request *)

Inductive HttpOutcome :=
| HttpResponse (status : N) (data : Value)   (* a response arrived, body parsed *)
| NetworkError.                              (* no response: connection failure, transport timeout *)

(** When and how the promise of [api.post] settles for one request.  The
    transport is the environment of the program: nothing is assumed about
    its latency.  The instance is created with [timeout: 10000]; when that
    timeout of the transport fires, the promise is rejected, which is the
    case [NetworkError]; whether it fires in time is up to the transport. *)
Inductive NetReply :=
| Settles (latency : N) (o : HttpOutcome)
| NeverSettles.

Record Response := { status : N; data : Value }.

(** The promise of [api.post]: the transport resolves with the response on
    a 2xx status and rejects on any other status and when no response
    arrives. *)
Definition api_post (o : HttpOutcome) : Completion Response :=
  match o with
  | HttpResponse s d =>
      if (200 <=? s) && (s <? 300)
      then Normal {| status := s; data := d |}
      else Throw (AxiosError (Some s))
  | NetworkError => Throw (AxiosError None)
  end.

(** ** Requests *)

Record ChatMessage := { role : string; content : string }.

Record Body := {
  model : string;
  body_messages : list ChatMessage;
  temperature : Q;
  max_tokens : N
}.

Record Request := { method : string; url : string; body : Body }.

(** ** The conversation *)

Record Message := { msg_content : Value; isUser : bool; timestamp : N }.

Inductive ConsoleLine :=
| ConsoleLog (text : string)
| ConsoleError (label : string) (e : Error).

(** ** Pending tasks *)

Inductive Event :=
| Evict (cacheKey : string)
    (* [() => messageCache.delete(cacheKey)] *)
| NetSettled (call : nat) (cacheKey : string) (o : HttpOutcome)
    (* the promise of [api.post] settles and [sendMessage] resumes *)
| RaceTimeout (call : nat).
    (* [() => reject(new Error('Request timeout'))] *)

(** ** The state of the program *)

Record World := {
  now : N;                               (* the clock, in milliseconds *)
  messageCache : gmap string Value;      (* [const messageCache = new Map()] *)
  tasks : list (N * Event);              (* pending tasks with their deadlines, in creation order *)
  posted : list Request;                 (* the requests sent so far *)
  settled : gmap nat (Completion Value); (* how the promise returned by each call of [sendMessage] has settled *)
  next_call : nat;                       (* the number of calls of [sendMessage] so far: names the promises *)
  racing : gset nat;                     (* the calls on which a [handleSend] awaits its race *)
  messages : list Message;               (* [useState([])] of the chat context *)
  isLoading : bool;                      (* [useState(false)] of the chat context *)
  console : list ConsoleLine;
  stored_at : gmap string N              (* history variable: when each key was last set; never read by the program *)
}.

Definition init : World := {|
  now := 0; messageCache := ∅; tasks := []; posted := []; settled := ∅;
  next_call := 0; racing := ∅; messages := []; isLoading := false;
  console := []; stored_at := ∅
|}.

(** Field updates. *)
Definition set_now (t : N) (w : World) : World :=
  {| now := t; messageCache := messageCache w; tasks := tasks w;
     posted := posted w; settled := settled w; next_call := next_call w;
     racing := racing w; messages := messages w; isLoading := isLoading w;
     console := console w; stored_at := stored_at w |}.

Definition set_messageCache (m : gmap string Value) (w : World) : World :=
  {| now := now w; messageCache := m; tasks := tasks w;
     posted := posted w; settled := settled w; next_call := next_call w;
     racing := racing w; messages := messages w; isLoading := isLoading w;
     console := console w; stored_at := stored_at w |}.

Definition set_tasks (q : list (N * Event)) (w : World) : World :=
  {| now := now w; messageCache := messageCache w; tasks := q;
     posted := posted w; settled := settled w; next_call := next_call w;
     racing := racing w; messages := messages w; isLoading := isLoading w;
     console := console w; stored_at := stored_at w |}.

Definition set_posted (l : list Request) (w : World) : World :=
  {| now := now w; messageCache := messageCache w; tasks := tasks w;
     posted := l; settled := settled w; next_call := next_call w;
     racing := racing w; messages := messages w; isLoading := isLoading w;
     console := console w; stored_at := stored_at w |}.

Definition set_settled (m : gmap nat (Completion Value)) (w : World) : World :=
  {| now := now w; messageCache := messageCache w; tasks := tasks w;
     posted := posted w; settled := m; next_call := next_call w;
     racing := racing w; messages := messages w; isLoading := isLoading w;
     console := console w; stored_at := stored_at w |}.

Definition set_next_call (n : nat) (w : World) : World :=
  {| now := now w; messageCache := messageCache w; tasks := tasks w;
     posted := posted w; settled := settled w; next_call := n;
     racing := racing w; messages := messages w; isLoading := isLoading w;
     console := console w; stored_at := stored_at w |}.

Definition set_racing (s : gset nat) (w : World) : World :=
  {| now := now w; messageCache := messageCache w; tasks := tasks w;
     posted := posted w; settled := settled w; next_call := next_call w;
     racing := s; messages := messages w; isLoading := isLoading w;
     console := console w; stored_at := stored_at w |}.

Definition setMessages (l : list Message) (w : World) : World :=
  {| now := now w; messageCache := messageCache w; tasks := tasks w;
     posted := posted w; settled := settled w; next_call := next_call w;
     racing := racing w; messages := l; isLoading := isLoading w;
     console := console w; stored_at := stored_at w |}.

Definition setIsLoading (b : bool) (w : World) : World :=
  {| now := now w; messageCache := messageCache w; tasks := tasks w;
     posted := posted w; settled := settled w; next_call := next_call w;
     racing := racing w; messages := messages w; isLoading := b;
     console := console w; stored_at := stored_at w |}.

Definition set_console (l : list ConsoleLine) (w : World) : World :=
  {| now := now w; messageCache := messageCache w; tasks := tasks w;
     posted := posted w; settled := settled w; next_call := next_call w;
     racing := racing w; messages := messages w; isLoading := isLoading w;
     console := l; stored_at := stored_at w |}.

Definition set_stored_at (m : gmap string N) (w : World) : World :=
  {| now := now w; messageCache := messageCache w; tasks := tasks w;
     posted := posted w; settled := settled w; next_call := next_call w;
     racing := racing w; messages := messages w; isLoading := isLoading w;
     console := console w; stored_at := m |}.

(** ** Primitives of the runtime *)

(** [setTimeout(callback, delay)]: the callback runs once, [delay]
    milliseconds from now. *)
Definition setTimeout (ev : Event) (delay : N) (w : World) : World :=
  set_tasks (tasks w ++ [(now w + delay, ev)]) w.

Definition console_log (text : string) (w : World) : World :=
  set_console (console w ++ [ConsoleLog text]) w.

Definition console_error (label : string) (e : Error) (w : World) : World :=
  set_console (console w ++ [ConsoleError label e]) w.

(** [messageCache.set(key, value)] *)
Definition cache_set (key : string) (v : Value) (w : World) : World :=
  set_stored_at (<[key := now w]> (stored_at w))
    (set_messageCache (<[key := v]> (messageCache w)) w).

(** [messageCache.delete(key)] *)
Definition cache_delete (key : string) (w : World) : World :=
  set_messageCache (delete key (messageCache w)) w.

(** ** src/api/openai.js *)

Definition TTL : N := 5 * 60 * 1000.

Definition cacheKey (systemPrompt message : string) : string :=
  systemPrompt +:+ ":" +:+ message.

Definition request_body (message systemPrompt : string) : Body :=
  {| model := "gpt-3.5-turbo";
     body_messages := [ {| role := "system"; content := systemPrompt |};
                        {| role := "user"; content := message |} ];
     temperature := 7 # 10;
     max_tokens := 500 |}.

Definition request (message systemPrompt : string) : Request :=
  {| method := "POST"; url := "/chat/completions";
     body := request_body message systemPrompt |}.

(** [response.data.choices[0].message.content] *)
Definition read_content (response : Response) : Completion Value :=
  choices ← get (data response) p_choices;
  first ← get choices p_0;
  message ← get first p_message;
  get message p_content.

(** The promise of call number [call] settles. *)
Definition settle (call : nat) (r : Completion Value) (w : World) : World :=
  set_settled (<[call := r]> (settled w)) w.

(** [sendMessage] from its entry to its first suspension.  On a cache hit
    the promise it returns is settled at once; on a miss the request is sent
    and the function is suspended until the transport answers.  The result
    is the number of the call and the new state. *)
Definition sendMessage (net : NetReply) (message systemPrompt : string)
    (w : World) : nat * World :=
  let call := next_call w in
  let w := set_next_call (S call) w in
  let key := cacheKey systemPrompt message in
  match messageCache w !! key with
  | Some cached =>
      (call, settle call (Normal cached) (console_log "Using cached response" w))
  | None =>
      let w := set_posted (posted w ++ [request message systemPrompt]) w in
      match net with
      | Settles latency o =>
          (call, set_tasks (tasks w ++ [(now w + latency, NetSettled call key o)]) w)
      | NeverSettles => (call, w)
      end
  end.

(** Caching a response: [messageCache.set(cacheKey, result)] followed by
    [setTimeout(() => messageCache.delete(cacheKey), 5 * 60 * 1000)]. *)
Definition store (key : string) (result : Value) (w : World) : World :=
  setTimeout (Evict key) TTL (cache_set key result w).

(** [sendMessage] from [await api.post(...)] to its end: the result is
    read from the response, stored and scheduled for removal; anything thrown
    on the way is logged and thrown again.  The result is how the promise of
    the call settles, and the new state. *)
Definition sendMessage_resume (call : nat) (key : string) (o : HttpOutcome)
    (w : World) : Completion Value * World :=
  let '(r, w) :=
    match response ← api_post o; read_content response with
    | Normal result => (Normal result, store key result w)
    | Throw error => (Throw error, console_error "OpenAI API Error:" error w)
    end in
  (r, settle call r w).

(** ** src/context/ChatContext.js *)

Definition addMessage (message : Value) (is_user : bool) (w : World) : World :=
  setMessages (messages w ++
    [ {| msg_content := message; isUser := is_user; timestamp := now w |} ]) w.

(** ** src/components/Chat.js *)

Definition fallback : string :=
  "Sorry, there was an error processing your request.".

(** Code units that [String.prototype.trim] removes, among the 8-bit ones. *)
Definition is_space (c : Ascii.ascii) : bool :=
  let n := Ascii.N_of_ascii c in
  ((9 <=? n) && (n <=? 13)) || (n =? 32) || (n =? 160).

Fixpoint trim_start (s : string) : string :=
  match s with
  | String c rest => if is_space c then trim_start rest else s
  | EmptyString => EmptyString
  end.

Fixpoint trim_end (s : string) : string :=
  match s with
  | String c rest =>
      match trim_end rest with
      | EmptyString => if is_space c then EmptyString else String c EmptyString
      | rest' => String c rest'
      end
  | EmptyString => EmptyString
  end.

Definition trim (s : string) : string := trim_end (trim_start s).

(** A string is falsy exactly when it is empty. *)
Definition truthy (s : string) : bool :=
  match s with
  | EmptyString => false
  | String _ _ => true
  end.

(** [handleSend] from [await Promise.race([...])] to its end, with the
    outcome of the race. *)
Definition handleSend_resume (r : Completion Value) (w : World) : World :=
  setIsLoading false
    match r with
    | Normal response => addMessage response false w
    | Throw error =>
        addMessage (VStr fallback) false
          (console_error "Error sending message:" error w)
    end.

(** [handleSend] of the chat screen, from its entry to its suspension at
    the race (or to its end when the race is already decided). *)
Definition handleSend (net : NetReply) (text : string) (w : World) : World :=
  if negb (truthy (trim text)) then w else
  let w := addMessage (VStr text) true w in
  let w := setIsLoading true w in
  let w := setTimeout (RaceTimeout (next_call w)) 15000 w in
  let '(call, w) := sendMessage net text "" w in
  match settled w !! call with
  | Some r => handleSend_resume r w
  | None => set_racing ({[call]} ∪ racing w) w
  end.

(** One of the two promises of a race settles: the suspended [handleSend]
    resumes with it, unless its race was decided before. *)
Definition race_settles (call : nat) (r : Completion Value) (w : World) : World :=
  if decide (call ∈ racing w)
  then handleSend_resume r (set_racing (racing w ∖ {[call]}) w)
  else w.

(** ** src/components/InputBox.js *)

(** [handleSend] of the input box: it forwards to [onSend], the
    [handleSend] of the chat screen, unless the text is blank or a send is
    outstanding. *)
Definition InputBox_handleSend (net : NetReply) (text : string) (w : World) : World :=
  if truthy (trim text) && negb (isLoading w) then handleSend net text w else w.

(** ** The event loop *)

(** Running one task. *)
Definition fire (ev : Event) (w : World) : World :=
  match ev with
  | Evict key => cache_delete key w
  | NetSettled call key o =>
      let '(r, w) := sendMessage_resume call key o w in
      race_settles call r w
  | RaceTimeout call =>
      race_settles call (Throw (PlainError "Request timeout")) w
  end.

(** The task with the least deadline, the oldest among equals, and the
    tasks that remain. *)
Fixpoint pop_earliest (q : list (N * Event)) : option (N * Event * list (N * Event)) :=
  match q with
  | [] => None
  | (d, ev) :: q' =>
      match pop_earliest q' with
      | Some (d', ev', rest) =>
          if d' <? d then Some (d', ev', (d, ev) :: rest) else Some (d, ev, q')
      | None => Some (d, ev, q')
      end
  end.

Definition next_due (t : N) (q : list (N * Event)) : option (N * Event * list (N * Event)) :=
  match pop_earliest q with
  | Some (d, ev, rest) => if d <=? t then Some (d, ev, rest) else None
  | None => None
  end.

(** A task is run at its deadline (or now, when the deadline has passed). *)
Definition run_task (d : N) (ev : Event) (rest : list (N * Event)) (w : World) : World :=
  fire ev (set_tasks rest (set_now (N.max (now w) d) w)).

Definition weight_of (ev : Event) : nat :=
  match ev with
  | NetSettled _ _ _ => 2
  | _ => 1
  end.

Definition weight (q : list (N * Event)) : nat :=
  sum_list_with (λ x, weight_of x.2) q.

(** [run] is the loop of [advance] with a bound on the number of tasks it
    runs; [advance] gives it a bound that is never reached (see
    [advance_unfold]). *)
Fixpoint run (fuel : nat) (t : N) (w : World) : World :=
  match fuel with
  | O => w
  | S fuel =>
      match next_due t (tasks w) with
      | Some (d, ev, rest) => run fuel t (run_task d ev rest w)
      | None => set_now (N.max (now w) t) w
      end
  end.

(** Time passes until [t]: every task due by then is run, in order. *)
Definition advance (t : N) (w : World) : World :=
  run (S (weight (tasks w))) t w.

(** * Notions for the proofs *)

(** What a task leaves in the cache: the text that [sendMessage] reads
    from the answer of the transport, or what it throws. *)
Definition completion (o : HttpOutcome) : Completion Value :=
  response ← api_post o; read_content response.
Arguments completion : simpl never.

(** The key that a task reads or writes in the cache. *)
Definition touches (key : string) (ev : Event) : bool :=
  match ev with
  | Evict k | NetSettled _ k _ => bool_decide (k = key)
  | RaceTimeout _ => false
  end.

(** The call that a task belongs to. *)
Definition event_call (ev : Event) : option nat :=
  match ev with
  | Evict _ => None
  | NetSettled c _ _ | RaceTimeout c => Some c
  end.

(** The tasks that running a task at time [t] creates. *)
Definition spawn (t : N) (ev : Event) : list (N * Event) :=
  match ev with
  | NetSettled _ k o =>
      match completion o with
      | Normal _ => [(t + TTL, Evict k)]
      | Throw _ => []
      end
  | _ => []
  end.

(** The message that the end of a race appends. *)
Definition race_message (r : Completion Value) (t : N) : Message :=
  match r with
  | Normal response => {| msg_content := response; isUser := false; timestamp := t |}
  | Throw _ => {| msg_content := VStr fallback; isUser := false; timestamp := t |}
  end.

(** The promise that a task settles in a race, and how. *)
Definition race_outcome (ev : Event) : option (nat * Completion Value) :=
  match ev with
  | Evict _ => None
  | NetSettled c _ o => Some (c, completion o)
  | RaceTimeout c => Some (c, Throw (PlainError "Request timeout"))
  end.

(** No task on [key] is due by [t]. *)
Definition quiet (key : string) (t : N) (q : list (N * Event)) : bool :=
  forallb (λ x, negb (touches key x.2) || (t <? x.1)) q.

(** ** Reachable states *)

(** The states of the program: the user presses send and callers call
    [sendMessage] at any time, with any answer of the transport, and time
    passes in between. *)
Inductive reachable : World → Prop :=
| reach_init : reachable init
| reach_sendMessage net message systemPrompt w :
    reachable w → reachable (sendMessage net message systemPrompt w).2
| reach_handleSend net text w :
    reachable w → reachable (handleSend net text w)
| reach_advance t w :
    reachable w → now w ≤ t → reachable (advance t w).

(** What every task preserves. *)
Record stable (w : World) : Prop := {
  stable_covered : ∀ k v, messageCache w !! k = Some v →
    ∃ s d, stored_at w !! k = Some s ∧ (d, Evict k) ∈ tasks w ∧ d ≤ s + TTL;
  stable_stored : ∀ k s, stored_at w !! k = Some s → s ≤ now w;
  stable_tasks : ∀ d ev c, (d, ev) ∈ tasks w → event_call ev = Some c →
    (c < next_call w)%nat;
  stable_racing : ∀ c, c ∈ racing w → (c < next_call w)%nat;
  stable_settled : ∀ c r, settled w !! c = Some r → (c < next_call w)%nat
}.

(** What holds whenever the program is called: moreover every removal
    that is scheduled lies in the future. *)
Record inv (w : World) : Prop := {
  inv_stable : stable w;
  inv_evict : ∀ d k, (d, Evict k) ∈ tasks w → now w < d
}.

(** ** Notions used in the statements *)

(** The state in which a send leaves the program on a cache miss: the
    user's message is appended, the timer of the race and the request are
    pending, and [handleSend] is suspended at the race. *)
Definition suspended_send (net : NetReply) (text : string) (w : World) : World :=
  {| now := now w; messageCache := messageCache w;
     tasks := (tasks w ++ [(now w + 15000, RaceTimeout (next_call w))]) ++
              match net with
              | Settles latency o =>
                  [(now w + latency, NetSettled (next_call w) (cacheKey "" text) o)]
              | NeverSettles => []
              end;
     posted := posted w ++ [request text ""];
     settled := settled w; next_call := S (next_call w);
     racing := {[next_call w]} ∪ racing w;
     messages := messages w ++
       [{| msg_content := VStr text; isUser := true; timestamp := now w |}];
     isLoading := true; console := console w; stored_at := stored_at w |}.

(** A successful answer of the transport carrying one completion. *)
Definition chat_completion (text : string) : Value :=
  VObj [("id", VStr "chatcmpl-1");
        ("choices",
         VArr [VObj [("index", VNum 0);
                     ("message", VObj [("role", VStr "assistant");
                                       ("content", VStr text)])]])].

(** The transport is slower than the race allows. *)
Definition slow (net : NetReply) : bool :=
  match net with
  | Settles latency _ => 15000 <? latency
  | NeverSettles => true
  end.

(** The ways in which the network call of [sendMessage] fails: a status
    outside 2xx, no response at all, or a 2xx response with a body on which
    reading [data.choices[0].message.content] throws. *)
Inductive failure : HttpOutcome → Error → Prop :=
| failure_status st data :
    ¬ (200 ≤ st ∧ st < 300) →
    failure (HttpResponse st data) (AxiosError (Some st))
| failure_network :
    failure NetworkError (AxiosError None)
| failure_payload st data e :
    200 ≤ st → st < 300 →
    read_content {| status := st; data := data |} = Throw e →
    failure (HttpResponse st data) e.

(** The send fails or is timed out. *)
Definition fails (net : NetReply) : Prop :=
  match net with
  | Settles latency o => (∃ e, failure o e) ∨ 15000 < latency
  | NeverSettles => True
  end.

(** The delay after which the race of a send is decided. *)
Definition decided_after (net : NetReply) : N :=
  match net with
  | Settles latency _ => N.min latency 15000
  | NeverSettles => 15000
  end.

(** ** Further notions: the rest of the chat screen *)

(** The states that the chat screen reaches: the user presses send in the
    input box at any time, with any text and any answer of the transport,
    and time passes in between. *)
Inductive ui_reachable : World → Prop :=
| ui_init : ui_reachable init
| ui_send net text w :
    ui_reachable w → ui_reachable (InputBox_handleSend net text w)
| ui_advance t w :
    ui_reachable w → now w ≤ t → ui_reachable (advance t w).

(** What the program goes through from a state on: calls and time. *)
Inductive steps (w : World) : World → Prop :=
| steps_refl : steps w w
| steps_sendMessage net message systemPrompt w' :
    steps w w' → steps w (sendMessage net message systemPrompt w').2
| steps_handleSend net text w' :
    steps w w' → steps w (handleSend net text w')
| steps_InputBox net text w' :
    steps w w' → steps w (InputBox_handleSend net text w')
| steps_advance t w' :
    steps w w' → now w' ≤ t → steps w (advance t w').

(** Reading a conversation turn by turn: the user speaks when no reply is
    awaited, the bot when one is.  The result tells whether a reply is
    awaited at the end; there is none when a message is out of turn. *)
Definition turn (awaited : option bool) (m : Message) : option bool :=
  match awaited with
  | Some false => if isUser m then Some true else None
  | Some true => if isUser m then None else Some false
  | None => None
  end.

Definition turns (l : list Message) : option bool :=
  foldl turn (Some false) l.

(** What the chat screen keeps: the user and the bot speak in turn, a
    reply is awaited exactly while loading, and then exactly one race is
    open. *)
Definition in_turn (w : World) : Prop :=
  turns (messages w) = Some (isLoading w) ∧
  if isLoading w then ∃ c, racing w = {[c]} else racing w = ∅.

(** The timestamps of a conversation never decrease. *)
Definition chronological (l : list Message) : Prop :=
  ∀ i j m1 m2, (i ≤ j)%nat → l !! i = Some m1 → l !! j = Some m2 →
               timestamp m1 ≤ timestamp m2.

(** A conversation in order, with no message later than [t]. *)
Definition timely (l : list Message) (t : N) : Prop :=
  chronological l ∧ Forall (λ m, timestamp m ≤ t) l.

(** The text consists of code units that [trim] removes. *)
Fixpoint whitespace_only (s : string) : bool :=
  match s with
  | EmptyString => true
  | String c rest => is_space c && whitespace_only rest
  end.

(** The text has no colon. *)
Fixpoint no_colon (s : string) : bool :=
  match s with
  | EmptyString => true
  | String c rest => negb (Ascii.eqb c (Ascii.ascii_of_N 58)) && no_colon rest
  end.

(** The number of cache hits that the console reports. *)
Definition is_hit (x : ConsoleLine) : bool :=
  match x with
  | ConsoleLog text => String.eqb text "Using cached response"
  | ConsoleError _ _ => false
  end.

Definition hits (l : list ConsoleLine) : nat :=
  sum_list_with (λ x, if is_hit x then 1%nat else 0%nat) l.

(** The errors that [handleSend] has reported on the console, oldest
    first: one line ["Error sending message:"] for each. *)
Definition send_error (x : ConsoleLine) : option Error :=
  match x with
  | ConsoleError label e =>
      if String.eqb label "Error sending message:" then Some e else None
  | ConsoleLog _ => None
  end.

Definition send_errors (l : list ConsoleLine) : list Error := omap send_error l.

(** The error that [handleSend] reports at the end of a race. *)
Definition race_errors (r : Completion Value) : list Error :=
  match r with
  | Normal _ => []
  | Throw e => [e]
  end.






(** [keyExtractor] of the chat screen: [(_, index) => `msg-${index}`], for
    the index of an item of the list. *)
Definition keyExtractor (index : nat) : string := "msg-" +:+ pretty index.

(** * Lemmas *)

(** ** The queue of tasks *)

Section pop_earliest.
Implicit Types q rest : list (N * Event).

Lemma pop_earliest_None q : pop_earliest q = None → q = [].
Proof.
  destruct q as [|[d ev] q]; [done|]. simpl.
  destruct (pop_earliest q) as [[[d' ev'] rest]|]; [|done].
  by destruct (d' <? d).
Qed.

Lemma pop_earliest_perm q d ev rest :
  pop_earliest q = Some (d, ev, rest) → q ≡ₚ (d, ev) :: rest.
Proof.
  revert d ev rest. induction q as [|[d0 ev0] q IH]; intros d ev rest; [done|].
  simpl. destruct (pop_earliest q) as [[[d' ev'] rest']|] eqn:Hq.
  - destruct (d' <? d0); intros [= <- <- <-]; [|done].
    rewrite (IH _ _ _ eq_refl). apply Permutation_swap.
  - by intros [= <- <- <-].
Qed.

Lemma pop_earliest_least q d ev rest :
  pop_earliest q = Some (d, ev, rest) → ∀ d' ev', (d', ev') ∈ q → d ≤ d'.
Proof.
  revert d ev rest. induction q as [|[d0 ev0] q IH]; intros d ev rest; [done|].
  simpl. destruct (pop_earliest q) as [[[d1 ev1] rest1]|] eqn:Hq.
  - specialize (IH _ _ _ eq_refl).
    destruct (N.ltb_spec d1 d0); intros [= <- <- <-] d' ev' Hin;
      apply elem_of_cons in Hin as [[= -> ->]|Hin]; try lia;
      specialize (IH _ _ Hin); lia.
  - apply pop_earliest_None in Hq as ->.
    intros [= <- <- <-] d' ev' Hin.
    apply elem_of_cons in Hin as [[= -> ->]|Hin]; [lia|].
    by apply elem_of_nil in Hin.
Qed.

Lemma pop_earliest_elem q d ev rest :
  pop_earliest q = Some (d, ev, rest) → (d, ev) ∈ q.
Proof. intros ->%pop_earliest_perm. apply elem_of_cons; by left. Qed.

Lemma pop_earliest_rest q d ev rest x :
  pop_earliest q = Some (d, ev, rest) → x ∈ rest → x ∈ q.
Proof. intros ->%pop_earliest_perm ?. apply elem_of_cons; by right. Qed.

Lemma pop_earliest_inv q d ev rest x :
  pop_earliest q = Some (d, ev, rest) → x ∈ q → x = (d, ev) ∨ x ∈ rest.
Proof. intros ->%pop_earliest_perm ?%elem_of_cons. done. Qed.

Lemma next_due_Some t q d ev rest :
  next_due t q = Some (d, ev, rest) → pop_earliest q = Some (d, ev, rest) ∧ d ≤ t.
Proof.
  unfold next_due. destruct (pop_earliest q) as [[[d' ev'] rest']|]; [|done].
  destruct (N.leb_spec d' t); [|done]. by intros [= <- <- <-].
Qed.

Lemma next_due_None t q :
  next_due t q = None → ∀ d ev, (d, ev) ∈ q → t < d.
Proof.
  unfold next_due. destruct (pop_earliest q) as [[[d' ev'] rest']|] eqn:Hq.
  - destruct (N.leb_spec d' t); [done|]. intros _ d ev Hin.
    pose proof (pop_earliest_least _ _ _ _ Hq _ _ Hin). lia.
  - apply pop_earliest_None in Hq as ->. intros _ d ev Hin.
    by apply elem_of_nil in Hin.
Qed.

Lemma weight_pop q d ev rest :
  pop_earliest q = Some (d, ev, rest) →
  weight q = (weight_of ev + weight rest)%nat.
Proof.
  intros Hp%pop_earliest_perm. unfold weight. by rewrite Hp.
Qed.

Lemma weight_app q1 q2 : weight (q1 ++ q2) = (weight q1 + weight q2)%nat.
Proof. apply sum_list_with_app. Qed.

Lemma quiet_spec key t q :
  quiet key t q = true ↔ ∀ d ev, (d, ev) ∈ q → touches key ev = true → t < d.
Proof.
  unfold quiet. rewrite forallb_forall. split.
  - intros H d ev Hin Ht. apply list_elem_of_In in Hin.
    specialize (H _ Hin). simpl in H. rewrite Ht in H. simpl in H.
    by apply N.ltb_lt.
  - intros H [d ev] Hin%list_elem_of_In. simpl.
    destruct (touches key ev) eqn:Ht; [|done]. simpl.
    apply N.ltb_lt. eauto.
Qed.
End pop_earliest.

(** ** What one task does, field by field *)

Section fire.
Implicit Types (w : World) (ev : Event).

Lemma sendMessage_resume_eq call key o w :
  sendMessage_resume call key o w =
    (completion o,
     match completion o with
     | Normal result => settle call (Normal result) (store key result w)
     | Throw error =>
         settle call (Throw error) (console_error "OpenAI API Error:" error w)
     end).
Proof.
  unfold sendMessage_resume. fold (completion o). by destruct (completion o).
Qed.

Lemma fire_NetSettled call key o w :
  fire (NetSettled call key o) w =
    race_settles call (completion o)
      match completion o with
      | Normal result => settle call (Normal result) (store key result w)
      | Throw error =>
          settle call (Throw error) (console_error "OpenAI API Error:" error w)
      end.
Proof. unfold fire. by rewrite sendMessage_resume_eq. Qed.

Ltac fire_cases ev w :=
  destruct ev as [k|c k o|c];
  [ done
  | rewrite fire_NetSettled;
    unfold race_settles, race_outcome, event_call;
    destruct (completion o); simpl; case_decide; try done
  | unfold fire, race_settles; simpl; case_decide; try done ].

Lemma now_fire ev w : now (fire ev w) = now w.
Proof. fire_cases ev w. Qed.

Lemma posted_fire ev w : posted (fire ev w) = posted w.
Proof. fire_cases ev w. Qed.

Lemma next_call_fire ev w : next_call (fire ev w) = next_call w.
Proof. fire_cases ev w. Qed.

Lemma tasks_fire ev w : tasks (fire ev w) = tasks w ++ spawn (now w) ev.
Proof.
  destruct ev as [k|c k o|c]; simpl spawn.
  - simpl. by rewrite app_nil_r.
  - rewrite fire_NetSettled. unfold race_settles.
    destruct (completion o); simpl; case_decide; simpl; by rewrite ?app_nil_r.
  - unfold fire, race_settles. case_decide; simpl; by rewrite app_nil_r.
Qed.

Lemma messageCache_fire ev w :
  messageCache (fire ev w) =
    match ev with
    | Evict k => delete k (messageCache w)
    | NetSettled _ k o =>
        match completion o with
        | Normal v => <[k := v]> (messageCache w)
        | Throw _ => messageCache w
        end
    | RaceTimeout _ => messageCache w
    end.
Proof. fire_cases ev w. Qed.

Lemma stored_at_fire ev w :
  stored_at (fire ev w) =
    match ev with
    | NetSettled _ k o =>
        match completion o with
        | Normal v => <[k := now w]> (stored_at w)
        | Throw _ => stored_at w
        end
    | _ => stored_at w
    end.
Proof. fire_cases ev w. Qed.

Lemma settled_fire ev w :
  settled (fire ev w) =
    match ev with
    | NetSettled c _ o => <[c := completion o]> (settled w)
    | _ => settled w
    end.
Proof. fire_cases ev w. Qed.

Lemma racing_fire ev w :
  racing (fire ev w) =
    match event_call ev with
    | Some c => racing w ∖ {[c]}
    | None => racing w
    end.
Proof. fire_cases ev w; set_solver. Qed.

Lemma messages_fire ev w :
  messages (fire ev w) =
    match race_outcome ev with
    | Some (c, r) =>
        if decide (c ∈ racing w) then messages w ++ [race_message r (now w)]
        else messages w
    | None => messages w
    end.
Proof. fire_cases ev w. Qed.

Lemma isLoading_fire ev w :
  isLoading (fire ev w) =
    match event_call ev with
    | Some c => if decide (c ∈ racing w) then false else isLoading w
    | None => isLoading w
    end.
Proof. fire_cases ev w. Qed.

Lemma console_fire_prefix ev w : console w `prefix_of` console (fire ev w).
Proof.
  destruct ev as [k|c k o|c].
  - done.
  - rewrite fire_NetSettled. unfold race_settles.
    destruct (completion o); simpl; case_decide; simpl;
      repeat apply prefix_app_r; done.
  - unfold fire, race_settles. case_decide; simpl;
      repeat apply prefix_app_r; done.
Qed.
End fire.

(** ** Time passing *)

Section advance.
Implicit Types (w : World) (ev : Event).

Lemma now_run_task d ev rest w : now (run_task d ev rest w) = N.max (now w) d.
Proof. unfold run_task. by rewrite now_fire. Qed.

Lemma tasks_run_task d ev rest w :
  tasks (run_task d ev rest w) = rest ++ spawn (N.max (now w) d) ev.
Proof. unfold run_task. by rewrite tasks_fire. Qed.

Lemma weight_spawn t ev : (weight (spawn t ev) < weight_of ev)%nat.
Proof.
  destruct ev as [k|c k o|c]; simpl; try (cbv; lia).
  destruct (completion o); cbv; lia.
Qed.

Lemma weight_run_task d ev rest w :
  pop_earliest (tasks w) = Some (d, ev, rest) →
  (weight (tasks (run_task d ev rest w)) < weight (tasks w))%nat.
Proof.
  intros Hp. rewrite tasks_run_task, weight_app, (weight_pop _ _ _ _ Hp).
  pose proof (weight_spawn (N.max (now w) d) ev). lia.
Qed.

Lemma run_enough t f f' w :
  (weight (tasks w) < f)%nat → (weight (tasks w) < f')%nat →
  run f t w = run f' t w.
Proof.
  revert f' w. induction f as [|f IH]; intros [|f'] w Hf Hf'; try lia.
  simpl. destruct (next_due t (tasks w)) as [[[d ev] rest]|] eqn:Hn; [|done].
  apply next_due_Some in Hn as [Hp _].
  pose proof (weight_run_task _ _ _ _ Hp). apply IH; lia.
Qed.

(** [advance] runs the next due task and goes on, until none is due. *)
Lemma advance_unfold t w :
  advance t w =
    match next_due t (tasks w) with
    | Some (d, ev, rest) => advance t (run_task d ev rest w)
    | None => set_now (N.max (now w) t) w
    end.
Proof.
  unfold advance at 1. simpl.
  destruct (next_due t (tasks w)) as [[[d ev] rest]|] eqn:Hn; [|done].
  apply next_due_Some in Hn as [Hp _].
  pose proof (weight_run_task _ _ _ _ Hp). apply run_enough; lia.
Qed.

(** Invariant rule: what every due task preserves holds in the end, when
    no task is due any more. *)
Lemma advance_ind t (P : World → Prop) :
  (∀ w d ev rest,
      P w → pop_earliest (tasks w) = Some (d, ev, rest) → d ≤ t →
      P (run_task d ev rest w)) →
  ∀ w, P w →
    ∃ w', P w' ∧ (∀ d ev, (d, ev) ∈ tasks w' → t < d) ∧
          advance t w = set_now (N.max (now w') t) w'.
Proof.
  intros Hstep w. remember (weight (tasks w)) as n eqn:Hn.
  revert w Hn. induction (lt_wf n) as [n _ IH]. intros w -> HP.
  rewrite advance_unfold.
  destruct (next_due t (tasks w)) as [[[d ev] rest]|] eqn:Hd.
  - apply next_due_Some in Hd as [Hp Hle].
    eapply IH; [by apply weight_run_task|done|]. by eapply Hstep.
  - exists w. split_and!; [done| |done]. by apply next_due_None.
Qed.
End advance.

Section invariant.
Implicit Types (w : World) (ev : Event).

Lemma stable_init : stable init.
Proof. split; simpl; intros *; try done; set_solver. Qed.

Lemma stable_run_task d ev rest w :
  stable w → pop_earliest (tasks w) = Some (d, ev, rest) →
  stable (run_task d ev rest w).
Proof.
  intros [Hc Hs Ht Hr Hse] Hp.
  assert (Hrest : ∀ x, x ∈ rest → x ∈ tasks w) by (intros; by eapply pop_earliest_rest).
  assert (Hinv : ∀ x, x ∈ tasks w → x = (d, ev) ∨ x ∈ rest)
    by (intros; by eapply pop_earliest_inv).
  pose proof (pop_earliest_elem _ _ _ _ Hp) as Hev.
  unfold run_task. split.
  - intros k v. rewrite messageCache_fire, stored_at_fire, tasks_fire. simpl.
    destruct ev as [k0|c k0 o|c]; simpl.
    + intros [Hne Hk]%lookup_delete_Some.
      destruct (Hc _ _ Hk) as (s & d' & ? & Hin & ?). exists s, d'.
      split_and!; [done| |done]. rewrite app_nil_r.
      destruct (Hinv _ Hin) as [[= -> ->]|]; done.
    + destruct (completion o) as [v0|e].
      * destruct (decide (k0 = k)) as [->|Hne].
        -- intros _. exists (N.max (now w) d), (N.max (now w) d + TTL).
           rewrite lookup_insert_eq. split_and!; [done| |lia].
           apply elem_of_app. right. by apply list_elem_of_singleton.
        -- rewrite !lookup_insert_ne by done. intros Hk.
           destruct (Hc _ _ Hk) as (s & d' & ? & Hin & ?). exists s, d'.
           split_and!; [done| |done]. apply elem_of_app. left.
           destruct (Hinv _ Hin) as [[=]|]; done.
      * intros Hk. destruct (Hc _ _ Hk) as (s & d' & ? & Hin & ?).
        exists s, d'. split_and!; [done| |done]. rewrite app_nil_r.
        destruct (Hinv _ Hin) as [[=]|]; done.
    + intros Hk. destruct (Hc _ _ Hk) as (s & d' & ? & Hin & ?).
      exists s, d'. split_and!; [done| |done]. rewrite app_nil_r.
      destruct (Hinv _ Hin) as [[=]|]; done.
  - intros k s. rewrite stored_at_fire, now_fire. simpl.
    destruct ev as [k0|c k0 o|c]; simpl;
      try (intros Hk%Hs; lia).
    destruct (completion o); [|intros Hk%Hs; lia].
    destruct (decide (k0 = k)) as [->|Hne].
    + rewrite lookup_insert_eq. intros [= <-]. lia.
    + rewrite lookup_insert_ne by done. intros Hk%Hs. lia.
  - intros d' ev' c. rewrite tasks_fire, next_call_fire. simpl.
    intros [Hin|Hin]%elem_of_app Hcall; [eapply Ht; [by apply Hrest|done]|].
    destruct ev as [k0|c0 k0 o|c0]; simpl in Hin;
      try by apply elem_of_nil in Hin.
    destruct (completion o); [|by apply elem_of_nil in Hin].
    apply list_elem_of_singleton in Hin as [= -> ->]. done.
  - intros c. rewrite racing_fire, next_call_fire. simpl.
    destruct (event_call ev); [|by apply Hr].
    intros [? _]%elem_of_difference. by apply Hr.
  - intros c r. rewrite settled_fire, next_call_fire. simpl.
    destruct ev as [k0|c0 k0 o|c0]; simpl; try by apply Hse.
    destruct (decide (c0 = c)) as [->|Hne].
    + intros _. by eapply Ht.
    + rewrite lookup_insert_ne by done. by apply Hse.
Qed.
End invariant.

Section calls.
Implicit Types (w : World) (ev : Event).

(** The two ways through [sendMessage]. *)
Lemma sendMessage_hit net message systemPrompt w cached :
  messageCache w !! cacheKey systemPrompt message = Some cached →
  sendMessage net message systemPrompt w =
    (next_call w,
     settle (next_call w) (Normal cached)
       (console_log "Using cached response" (set_next_call (S (next_call w)) w))).
Proof. unfold sendMessage. simpl. by intros ->. Qed.

Lemma sendMessage_miss net message systemPrompt w :
  messageCache w !! cacheKey systemPrompt message = None →
  sendMessage net message systemPrompt w =
    (next_call w,
     let w' := set_posted (posted w ++ [request message systemPrompt])
                 (set_next_call (S (next_call w)) w) in
     match net with
     | Settles latency o =>
         set_tasks (tasks w ++
           [(now w + latency,
             NetSettled (next_call w) (cacheKey systemPrompt message) o)]) w'
     | NeverSettles => w'
     end).
Proof. unfold sendMessage. simpl. intros ->. by destruct net. Qed.

Lemma sendMessage_call net message systemPrompt w :
  (sendMessage net message systemPrompt w).1 = next_call w.
Proof. unfold sendMessage. simpl. by repeat case_match. Qed.

(** A call leaves the cache and the clock alone and adds tasks of its own
    call only. *)
Lemma inv_extend w w' :
  inv w →
  messageCache w' = messageCache w → stored_at w' = stored_at w →
  now w' = now w → (next_call w ≤ next_call w')%nat →
  (∀ x, x ∈ tasks w → x ∈ tasks w') →
  (∀ d ev, (d, ev) ∈ tasks w' →
     (d, ev) ∈ tasks w ∨ ∃ c, event_call ev = Some c ∧ (c < next_call w')%nat) →
  (∀ c, c ∈ racing w' → c ∈ racing w ∨ (c < next_call w')%nat) →
  (∀ c r, settled w' !! c = Some r →
     is_Some (settled w !! c) ∨ (c < next_call w')%nat) →
  inv w'.
Proof.
  intros [[Hc Hs Ht Hr Hse] He] Hcache Hst Hnow Hn Hsub Htasks Hrac Hset.
  split; [split|].
  - intros k v. rewrite Hcache, Hst. intros Hk.
    destruct (Hc _ _ Hk) as (s & d & ? & ? & ?). exists s, d. eauto.
  - intros k s. rewrite Hst, Hnow. apply Hs.
  - intros d ev c Hin Hcall. destruct (Htasks _ _ Hin) as [Hold|(c' & Hc' & ?)].
    + specialize (Ht _ _ _ Hold Hcall). lia.
    + congruence.
  - intros c Hin. destruct (Hrac _ Hin) as [Hold%Hr|]; lia.
  - intros c r Hin. destruct (Hset _ _ Hin) as [[r' Hold%Hse]|]; lia.
  - intros d k Hin. rewrite Hnow.
    destruct (Htasks _ _ Hin) as [Hold|(c' & [=] & _)]. by eapply He.
Qed.

Lemma inv_sendMessage net message systemPrompt w :
  inv w → inv (sendMessage net message systemPrompt w).2.
Proof.
  intros Hinv.
  destruct (messageCache w !! cacheKey systemPrompt message) as [v|] eqn:Hk.
  - rewrite (sendMessage_hit _ _ _ _ _ Hk). simpl.
    apply (inv_extend w); simpl; try done; eauto.
    intros c r. destruct (decide (next_call w = c)) as [<-|].
    + intros _. right. lia.
    + rewrite lookup_insert_ne by done. eauto.
  - rewrite (sendMessage_miss _ _ _ _ Hk). simpl.
    destruct net as [l o|]; apply (inv_extend w); simpl; try done; eauto.
    + intros x Hx. apply elem_of_app. by left.
    + intros d ev [Hin|Hin]%elem_of_app; [by left|].
      apply list_elem_of_singleton in Hin as [= -> ->]. right.
      exists (next_call w). split; [done|lia].
Qed.

(** [handleSend] with the call of [sendMessage] made explicit. *)
Lemma handleSend_eq net text w :
  handleSend net text w =
    if negb (truthy (trim text)) then w else
    let w0 := setTimeout (RaceTimeout (next_call w)) 15000
                (setIsLoading true (addMessage (VStr text) true w)) in
    let w1 := (sendMessage net text "" w0).2 in
    match settled w1 !! next_call w with
    | Some r => handleSend_resume r w1
    | None => set_racing ({[next_call w]} ∪ racing w1) w1
    end.
Proof.
  unfold handleSend. destruct (negb _); [done|]. cbv zeta.
  change (next_call (setIsLoading true (addMessage (VStr text) true w)))
    with (next_call w).
  pose proof (sendMessage_call net text ""
    (setTimeout (RaceTimeout (next_call w)) 15000
      (setIsLoading true (addMessage (VStr text) true w)))) as Hc.
  destruct (sendMessage _ _ _ _) as [call w1]. simpl in Hc. by subst call.
Qed.

Lemma inv_handleSend net text w : inv w → inv (handleSend net text w).
Proof.
  intros Hinv. rewrite handleSend_eq.
  destruct (negb (truthy (trim text))); [done|]. cbv zeta.
  set (w1 := (sendMessage _ _ _ _).2).
  assert (Hext : inv w1 ∧ next_call w1 = S (next_call w)).
  { subst w1. unfold sendMessage. simpl.
    destruct (messageCache w !! _) as [v|]; [|destruct net as [l o|]];
      simpl; (split; [|done]); apply (inv_extend w); simpl; try done; eauto.
    - intros x Hx. apply elem_of_app. by left.
    - intros d ev [Hin|Hin]%elem_of_app; [by left|].
      apply list_elem_of_singleton in Hin as [= -> ->]. right.
      exists (next_call w). split; [done|lia].
    - intros c r. destruct (decide (next_call w = c)) as [<-|].
      + intros _. right. lia.
      + rewrite lookup_insert_ne by done. eauto.
    - intros x Hx. rewrite <- (assoc (++)). apply elem_of_app. by left.
    - intros d ev [[Hin|Hin]%elem_of_app|Hin]%elem_of_app; [by left|..];
        apply list_elem_of_singleton in Hin as [= -> ->]; right;
        exists (next_call w); (split; [done|lia]).
    - intros x Hx. apply elem_of_app. by left.
    - intros d ev [Hin|Hin]%elem_of_app; [by left|].
      apply list_elem_of_singleton in Hin as [= -> ->]. right.
      exists (next_call w). split; [done|lia]. }
  destruct Hext as [Hinv1 Hn1]. clearbody w1.
  destruct (settled w1 !! next_call w) as [r|].
  - apply (inv_extend w1); try done; destruct r; simpl; eauto.
  - apply (inv_extend w1); simpl; try done; eauto.
    intros c [->%elem_of_singleton|]%elem_of_union; [right; lia|by left].
Qed.

Lemma inv_advance t w : inv w → now w ≤ t → inv (advance t w).
Proof.
  intros [Hst He] Hle.
  destruct (advance_ind t (λ w', stable w' ∧ now w' ≤ t)) with (w := w)
    as (w' & [Hst' Hle'] & Hdue & ->); [|done|].
  { intros w0 d ev rest [Hs0 Hl0] Hp Hd. split.
    - by apply stable_run_task.
    - rewrite now_run_task. lia. }
  destruct Hst' as [Hc Hs Ht Hr Hse].
  split; [split|]; simpl; try done.
  - intros k s Hk%Hs. lia.
  - intros d k Hin%Hdue. lia.
Qed.

Lemma inv_init : inv init.
Proof. split; [apply stable_init|]. simpl. intros d k Hin. set_solver. Qed.

(** The invariant holds in every reachable state. *)
Lemma reachable_inv w : reachable w → inv w.
Proof.
  induction 1; auto using inv_init, inv_sendMessage, inv_handleSend, inv_advance.
Qed.

Lemma reachable_InputBox net text w :
  reachable w → reachable (InputBox_handleSend net text w).
Proof.
  intros Hw. unfold InputBox_handleSend.
  destruct (_ && _); [by apply reach_handleSend|done].
Qed.
End calls.

(** * What time passing preserves *)

Section frame.
Implicit Types (w : World) (ev : Event) (key : string).

Lemma touches_spawn key t ev x :
  x ∈ spawn t ev → touches key x.2 = touches key ev ∧ x.1 = t + TTL.
Proof.
  destruct ev as [k|c k o|c]; simpl; try by intros ?%elem_of_nil.
  destruct (completion o); [|by intros ?%elem_of_nil].
  by intros ->%list_elem_of_singleton.
Qed.

Lemma spawn_evict t ev x : x ∈ spawn t ev → ∃ k, x.2 = Evict k.
Proof.
  destruct ev as [k|c k o|c]; simpl; try by intros ?%elem_of_nil.
  destruct (completion o); [|by intros ?%elem_of_nil].
  intros ->%list_elem_of_singleton. by exists k.
Qed.

Lemma fire_untouched key ev w :
  touches key ev = false →
  messageCache (fire ev w) !! key = messageCache w !! key.
Proof.
  rewrite messageCache_fire. destruct ev as [k|c k o|c]; simpl; [..|done].
  - intros Hne%bool_decide_eq_false. by rewrite lookup_delete_ne.
  - intros Hne%bool_decide_eq_false.
    destruct (completion o); [|done]. by rewrite lookup_insert_ne.
Qed.

Lemma now_advance t w : now w ≤ t → now (advance t w) = t.
Proof.
  intros Hle.
  destruct (advance_ind t (λ w', now w' ≤ t)) with (w := w)
    as (w' & Hle' & _ & ->); [|done|simpl; lia].
  intros w0 d ev rest Hl0 _ Hd. rewrite now_run_task. lia.
Qed.

(** Requests are sent by calls only, never by a task. *)
Lemma posted_advance t w : posted (advance t w) = posted w.
Proof.
  destruct (advance_ind t (λ w', posted w' = posted w)) with (w := w)
    as (w' & Hp & _ & ->); [|done|done].
  intros w0 d ev rest Hp0 _ _. unfold run_task. by rewrite posted_fire.
Qed.

Lemma next_call_advance t w : next_call (advance t w) = next_call w.
Proof.
  destruct (advance_ind t (λ w', next_call w' = next_call w)) with (w := w)
    as (w' & Hp & _ & ->); [|done|done].
  intros w0 d ev rest Hp0 _ _. unfold run_task. by rewrite next_call_fire.
Qed.

(** A task that is not due stays pending. *)
Lemma tasks_advance t w d ev :
  (d, ev) ∈ tasks w → t < d → (d, ev) ∈ tasks (advance t w).
Proof.
  intros Hin Hlt.
  destruct (advance_ind t (λ w', (d, ev) ∈ tasks w')) with (w := w)
    as (w' & Hp & _ & ->); [|done|done].
  intros w0 d0 ev0 rest Hin0 Hp Hd. rewrite tasks_run_task.
  apply elem_of_app. left.
  destruct (pop_earliest_inv _ _ _ _ _ Hp Hin0) as [[= -> ->]|]; [lia|done].
Qed.

(** While no task on a key is due, the entry of the key stays as it is,
    and no task on the key is created. *)
Lemma quiet_advance key t w :
  quiet key t (tasks w) = true →
  messageCache (advance t w) !! key = messageCache w !! key ∧
  ∀ d ev, (d, ev) ∈ tasks (advance t w) → touches key ev = true →
          (d, ev) ∈ tasks w.
Proof.
  rewrite quiet_spec. intros Hq.
  destruct (advance_ind t (λ w',
    messageCache w' !! key = messageCache w !! key ∧
    ∀ d ev, (d, ev) ∈ tasks w' → touches key ev = true → (d, ev) ∈ tasks w))
    with (w := w) as (w' & Hp & _ & ->); [|done|done].
  intros w0 d0 ev0 rest [Hc Ht] Hp Hd.
  assert (Hno : touches key ev0 = false).
  { destruct (touches key ev0) eqn:Htouch; [|done].
    pose proof (Hq _ _ (Ht _ _ (pop_earliest_elem _ _ _ _ Hp) Htouch)
                  Htouch). lia. }
  split.
  - unfold run_task. by rewrite fire_untouched.
  - intros d ev. rewrite tasks_run_task.
    intros [Hin|Hin]%elem_of_app Htouch.
    + apply Ht; [|done]. by eapply pop_earliest_rest.
    + apply (touches_spawn key) in Hin as [Heq _]. simpl in Heq. congruence.
Qed.

(** A removal that falls due empties the slot of its key, unless an
    answer for the same key is due as well. *)
Lemma evict_advance key t w d :
  (d, Evict key) ∈ tasks w → d ≤ t →
  (∀ d' ev, (d', ev) ∈ tasks w → touches key ev = true →
            (∃ k, ev = Evict k) ∨ t < d') →
  messageCache (advance t w) !! key = None.
Proof.
  intros Hin Hd Hq.
  destruct (advance_ind t (λ w',
    (∀ d' ev, (d', ev) ∈ tasks w' → touches key ev = true →
              (∃ k, ev = Evict k) ∨ t < d') ∧
    ((∃ d, (d, Evict key) ∈ tasks w' ∧ d ≤ t) ∨ messageCache w' !! key = None)))
    with (w := w) as (w' & [_ Hp] & Hdue & ->); [|eauto|].
  - intros w0 d0 ev0 rest [Hq0 Hp0] Hp Hd0. split.
    + intros d' ev. rewrite tasks_run_task.
      intros [Hin'|Hin']%elem_of_app Htouch.
      * apply Hq0; [|done]. by eapply pop_earliest_rest.
      * destruct ev0 as [k|c k o|c]; simpl in Hin';
          try by apply elem_of_nil in Hin'.
        destruct (completion o); [|by apply elem_of_nil in Hin'].
        apply list_elem_of_singleton in Hin' as [= -> ->]. eauto.
    + destruct (touches key ev0) eqn:Htouch.
      * right. unfold run_task. rewrite messageCache_fire.
        destruct (Hq0 _ _ (pop_earliest_elem _ _ _ _ Hp) Htouch)
          as [[k ->]|]; [|lia].
        simpl in Htouch. apply bool_decide_eq_true in Htouch as ->.
        apply lookup_delete_eq.
      * destruct Hp0 as [(d1 & Hin1 & Hd1)|Hnone].
        -- left. exists d1. split; [|done]. rewrite tasks_run_task.
           apply elem_of_app. left.
           destruct (pop_earliest_inv _ _ _ _ _ Hp Hin1) as [[= -> <-]|]; [|done].
           simpl in Htouch. by rewrite bool_decide_eq_true_2 in Htouch.
        -- right. unfold run_task. by rewrite fire_untouched.
  - simpl. destruct Hp as [(d1 & Hin1 & Hd1)|]; [|done].
    apply Hdue in Hin1. lia.
Qed.
End frame.

(** * The life of one call *)

Section one_call.
Implicit Types (w : World) (ev : Event) (key : string).

Lemma messages_fire_mono ev w m : m ∈ messages w → m ∈ messages (fire ev w).
Proof.
  intros Hin. rewrite messages_fire.
  destruct (race_outcome ev) as [[c r]|]; [|done].
  case_decide; [|done]. apply elem_of_app. by left.
Qed.

Lemma console_fire_mono ev w x : x ∈ console w → x ∈ console (fire ev w).
Proof.
  intros Hin. destruct (console_fire_prefix ev w) as [k ->].
  apply elem_of_app. by left.
Qed.

Lemma console_fire_race ev w c e :
  c ∈ racing w → race_outcome ev = Some (c, Throw e) →
  ConsoleError "Error sending message:" e ∈ console (fire ev w).
Proof.
  intros Hin. destruct ev as [k|c0 k o|c0]; unfold race_outcome; [done|..].
  - intros [= -> Ho]. rewrite fire_NetSettled, Ho.
    unfold race_settles. simpl. rewrite decide_True by done. simpl.
    apply elem_of_app. right. by apply list_elem_of_singleton.
  - intros [= -> <-]. unfold fire, race_settles.
    rewrite decide_True by done. simpl.
    apply elem_of_app. right. by apply list_elem_of_singleton.
Qed.

(** The answer to a request, once due, is stored under its key and its
    removal is scheduled, provided no other task on the key is due. *)
Lemma answer_advance key c o v t1 t w :
  completion o = Normal v →
  (t1, NetSettled c key o) ∈ tasks w → now w ≤ t1 → t1 ≤ t → t < t1 + TTL →
  (∀ d ev, (d, ev) ∈ tasks w → touches key ev = true → d ≤ t →
           (d, ev) = (t1, NetSettled c key o)) →
  messageCache (advance t w) !! key = Some v ∧
  (t1 + TTL, Evict key) ∈ tasks (advance t w).
Proof.
  intros Ho Hin Hnow Ht1 Ht Hq.
  destruct (advance_ind t (λ w',
    (∀ d ev, (d, ev) ∈ tasks w' → touches key ev = true → d ≤ t →
             (d, ev) = (t1, NetSettled c key o)) ∧
    (((t1, NetSettled c key o) ∈ tasks w' ∧ now w' ≤ t1) ∨
     (messageCache w' !! key = Some v ∧ (t1 + TTL, Evict key) ∈ tasks w'))))
    with (w := w) as (w' & [_ Hp] & Hdue & ->); [|eauto|].
  - intros w0 d0 ev0 rest [Hq0 Hp0] Hp Hd0.
    pose proof (pop_earliest_elem _ _ _ _ Hp) as Hev0.
    destruct (touches key ev0) eqn:Htouch.
    + pose proof (Hq0 _ _ Hev0 Htouch Hd0) as [= -> ->].
      assert (Hn : t1 ≤ N.max (now w0) t1) by lia.
      split.
      * intros d ev. rewrite tasks_run_task. simpl. rewrite Ho.
        intros [Hin'|Hin']%elem_of_app Htouch' Hd.
        -- apply Hq0; [by eapply pop_earliest_rest|done..].
        -- apply list_elem_of_singleton in Hin' as [= -> ->]. lia.
      * right. unfold run_task. rewrite messageCache_fire, tasks_fire, Ho.
        simpl. rewrite Ho, lookup_insert_eq. split; [done|].
        apply elem_of_app. destruct Hp0 as [[_ Hle]|[_ Hin1]].
        -- right. apply list_elem_of_singleton. f_equal. lia.
        -- left. destruct (pop_earliest_inv _ _ _ _ _ Hp Hin1) as [[=]|]; done.
    + split.
      * intros d ev. rewrite tasks_run_task.
        intros [Hin'|Hin']%elem_of_app Htouch' Hd.
        -- apply Hq0; [by eapply pop_earliest_rest|done..].
        -- apply (touches_spawn key) in Hin' as [Heq _]. simpl in Heq. congruence.
      * destruct Hp0 as [[Hin1 Hle]|[Hc Hin1]].
        -- left. split.
           ++ rewrite tasks_run_task. apply elem_of_app. left.
              destruct (pop_earliest_inv _ _ _ _ _ Hp Hin1) as [[= -> <-]|]; [|done].
              simpl in Htouch. by rewrite bool_decide_eq_true_2 in Htouch.
           ++ rewrite now_run_task.
              pose proof (pop_earliest_least _ _ _ _ Hp _ _ Hin1). lia.
        -- right. unfold run_task. rewrite fire_untouched by done.
           split; [done|]. rewrite tasks_fire. apply elem_of_app. left. simpl.
           destruct (pop_earliest_inv _ _ _ _ _ Hp Hin1) as [[= Hd1 _]|]; [lia|done].
  - simpl. destruct Hp as [[Hin1 _]|]; [|done]. apply Hdue in Hin1. lia.
Qed.

(** The promise of a call settles when the answer to its request is due. *)
Lemma settled_advance c key o t1 t w :
  (t1, NetSettled c key o) ∈ tasks w → t1 ≤ t →
  (∀ d ev k' o', (d, ev) ∈ tasks w → ev = NetSettled c k' o' → o' = o) →
  settled (advance t w) !! c = Some (completion o).
Proof.
  intros Hin Ht1 Hq.
  destruct (advance_ind t (λ w',
    (∀ d ev k' o', (d, ev) ∈ tasks w' → ev = NetSettled c k' o' → o' = o) ∧
    ((t1, NetSettled c key o) ∈ tasks w' ∨
     settled w' !! c = Some (completion o))))
    with (w := w) as (w' & [_ Hp] & Hdue & ->); [|eauto|].
  - intros w0 d0 ev0 rest [Hq0 Hp0] Hp Hd0.
    pose proof (pop_earliest_elem _ _ _ _ Hp) as Hev0.
    split.
    + intros d ev k' o'. rewrite tasks_run_task.
      intros [Hin'|Hin']%elem_of_app ->.
      * eapply Hq0; [by eapply pop_earliest_rest|done].
      * by apply spawn_evict in Hin' as [k [=]].
    + unfold run_task. rewrite settled_fire, tasks_fire. simpl.
      destruct ev0 as [k0|c0 k0 o0|c0].
      * destruct Hp0 as [Hin1|]; [left|by right].
        apply elem_of_app. left.
        destruct (pop_earliest_inv _ _ _ _ _ Hp Hin1) as [[=]|]; done.
      * destruct (decide (c0 = c)) as [->|Hne].
        -- right. rewrite (Hq0 _ _ _ _ Hev0 eq_refl). apply lookup_insert_eq.
        -- rewrite lookup_insert_ne by done.
           destruct Hp0 as [Hin1|]; [left|by right].
           apply elem_of_app. left.
           destruct (pop_earliest_inv _ _ _ _ _ Hp Hin1) as [[=]|]; done.
      * destruct Hp0 as [Hin1|]; [left|by right].
        apply elem_of_app. left.
        destruct (pop_earliest_inv _ _ _ _ _ Hp Hin1) as [[=]|]; done.
  - simpl. destruct Hp as [Hin1|]; [|done]. apply Hdue in Hin1. lia.
Qed.

(** The promise of a call without pending task stays as it is. *)
Lemma settled_advance_frame c t w :
  (∀ d ev, (d, ev) ∈ tasks w → event_call ev ≠ Some c) →
  settled (advance t w) !! c = settled w !! c.
Proof.
  intros Hq.
  destruct (advance_ind t (λ w',
    (∀ d ev, (d, ev) ∈ tasks w' → event_call ev ≠ Some c) ∧
    settled w' !! c = settled w !! c))
    with (w := w) as (w' & [_ Hp] & _ & ->); [|eauto|done].
  intros w0 d0 ev0 rest [Hq0 Hp0] Hp Hd0.
  pose proof (Hq0 _ _ (pop_earliest_elem _ _ _ _ Hp)) as Hev0.
  split.
  - intros d ev. rewrite tasks_run_task.
    intros [Hin'|Hin']%elem_of_app.
    + eapply Hq0. by eapply pop_earliest_rest.
    + apply spawn_evict in Hin' as [k Hk]. simpl in Hk. by subst ev.
  - unfold run_task. rewrite settled_fire. simpl.
    destruct ev0 as [k0|c0 k0 o0|c0]; try done.
    rewrite lookup_insert_ne; [done|]. simpl in Hev0. congruence.
Qed.

(** A race is decided by the first of its tasks that is due: the
    suspended [handleSend] resumes with its outcome, appends a message and
    stops loading. *)
Lemma race_advance c tr t (R : Completion Value → Prop) w :
  c ∈ racing w → now w ≤ tr → tr ≤ t →
  (∃ ev, (tr, ev) ∈ tasks w ∧ event_call ev = Some c) →
  (∀ d ev, (d, ev) ∈ tasks w → event_call ev = Some c →
     tr ≤ d ∧ (d = tr → ∃ r, race_outcome ev = Some (c, r) ∧ R r)) →
  (c ∉ racing (advance t w)) ∧ isLoading (advance t w) = false ∧
  ∃ r, R r ∧ race_message r tr ∈ messages (advance t w) ∧
    ∀ e, r = Throw e →
      ConsoleError "Error sending message:" e ∈ console (advance t w).
Proof.
  intros Hrac Hnow Htr Hex Hq.
  set (Done := λ w', (c ∉ racing w') ∧ isLoading w' = false ∧
    ∃ r, R r ∧ race_message r tr ∈ messages w' ∧
      ∀ e, r = Throw e → ConsoleError "Error sending message:" e ∈ console w').
  destruct (advance_ind t (λ w',
    (∀ d ev, (d, ev) ∈ tasks w' → event_call ev = Some c →
       tr ≤ d ∧ (d = tr → ∃ r, race_outcome ev = Some (c, r) ∧ R r)) ∧
    ((c ∈ racing w' ∧ now w' ≤ tr ∧
      ∃ ev, (tr, ev) ∈ tasks w' ∧ event_call ev = Some c) ∨ Done w')))
    with (w := w) as (w' & [_ Hp] & Hdue & ->); [|eauto|].
  - intros w0 d0 ev0 rest [Hq0 Hp0] Hp Hd0.
    pose proof (pop_earliest_elem _ _ _ _ Hp) as Hev0.
    split.
    + intros d ev. rewrite tasks_run_task.
      intros [Hin'|Hin']%elem_of_app Hcall.
      * eapply Hq0; [by eapply pop_earliest_rest|done].
      * apply spawn_evict in Hin' as [k Hk]. simpl in Hk. by subst ev.
    + destruct Hp0 as [(Hr0 & Hn0 & ev1 & Hin1 & Hc1)|(Hr0 & Hl0 & r & HR & Hm & Hcon)].
      * pose proof (pop_earliest_least _ _ _ _ Hp _ _ Hin1) as Hleast.
        destruct (decide (event_call ev0 = Some c)) as [Hc0|Hc0].
        -- right. destruct (Hq0 _ _ Hev0 Hc0) as [Hle Hout].
           assert (d0 = tr) as -> by lia.
           destruct (Hout eq_refl) as (r & Hr & HR).
           unfold run_task. split_and!.
           ++ rewrite racing_fire, Hc0. set_solver.
           ++ rewrite isLoading_fire, Hc0. simpl. by rewrite decide_True.
           ++ exists r. split_and!; [done|..].
              ** rewrite messages_fire, Hr. simpl. rewrite decide_True by done.
                 apply elem_of_app. right. apply list_elem_of_singleton.
                 f_equal. lia.
              ** intros e ->. by apply (console_fire_race _ _ c).
        -- left. unfold run_task. split_and!.
           ++ rewrite racing_fire. simpl.
              destruct (event_call ev0) as [c0|]; [|done].
              apply elem_of_difference. split; [done|].
              intros ->%elem_of_singleton. done.
           ++ rewrite now_fire. simpl. lia.
           ++ exists ev1. split; [|done]. rewrite tasks_fire. simpl.
              apply elem_of_app. left.
              destruct (pop_earliest_inv _ _ _ _ _ Hp Hin1) as [[= -> ->]|]; done.
      * right. unfold run_task. split_and!.
        -- rewrite racing_fire. simpl.
           destruct (event_call ev0); set_solver.
        -- rewrite isLoading_fire. simpl.
           destruct (event_call ev0); [case_decide|]; done.
        -- exists r. split_and!; [done|by apply messages_fire_mono|].
           intros e He. apply console_fire_mono. by apply Hcon.
  - destruct Hp as [(_ & _ & ev1 & Hin1 & _)|Hdone]; [|done].
    apply Hdue in Hin1. lia.
Qed.
End one_call.

(** ** The send of the chat screen, written out *)

Section handleSend.
Implicit Types (w : World) (text : string).

Lemma handleSend_miss net text w :
  inv w → truthy (trim text) = true →
  messageCache w !! cacheKey "" text = None →
  handleSend net text w =
    suspended_send net text w.
Proof.
  intros [[_ _ _ _ Hse] _] Htext Hmiss. rewrite handleSend_eq, Htext.
  unfold suspended_send. simpl.
  rewrite sendMessage_miss by done.
  assert (settled w !! next_call w = None) as Hnone.
  { destruct (settled w !! next_call w) eqn:Hs; [|done].
    apply Hse in Hs. lia. }
  destruct net as [l o|]; simpl; rewrite Hnone; simpl; by rewrite ?app_nil_r.
Qed.

(** A send on a cache hit: the race is decided at once and the cached
    text is appended as the answer; the timer of the race stays pending. *)
Lemma handleSend_hit net text w cached :
  truthy (trim text) = true →
  messageCache w !! cacheKey "" text = Some cached →
  handleSend net text w =
    {| now := now w; messageCache := messageCache w;
       tasks := tasks w ++ [(now w + 15000, RaceTimeout (next_call w))];
       posted := posted w;
       settled := <[next_call w := Normal cached]> (settled w);
       next_call := S (next_call w);
       racing := racing w;
       messages := (messages w ++
         [{| msg_content := VStr text; isUser := true; timestamp := now w |}]) ++
         [{| msg_content := cached; isUser := false; timestamp := now w |}];
       isLoading := false;
       console := console w ++ [ConsoleLog "Using cached response"];
       stored_at := stored_at w |}.
Proof.
  intros Htext Hhit. rewrite handleSend_eq, Htext. simpl.
  rewrite (sendMessage_hit _ _ _ _ cached) by done. simpl.
  by rewrite lookup_insert_eq.
Qed.
End handleSend.

(** ** Auxiliary facts for the claims *)

(** The tasks of a new call are the ones that the call creates. *)
Lemma own_tasks (w : World) extra d ev :
  inv w → (d, ev) ∈ tasks w ++ extra → event_call ev = Some (next_call w) →
  (d, ev) ∈ extra.
Proof.
  intros [[_ _ Ht _ _] _] [Hin|Hin]%elem_of_app Hcall; [|done].
  pose proof (Ht _ _ _ Hin Hcall). lia.
Qed.

(** What [sendMessage] reads from a 2xx response whose body has a first
    choice with a message: the content of that message. *)
Lemma completion_first_choice st fields first_fields more_choices message_fields :
  200 ≤ st → st < 300 →
  own_property "choices" fields = VArr (VObj first_fields :: more_choices) →
  own_property "message" first_fields = VObj message_fields →
  completion (HttpResponse st (VObj fields)) =
    Normal (own_property "content" message_fields).
Proof.
  intros Hlo Hhi Hchoices Hmessage. unfold completion, api_post.
  rewrite (proj2 (N.leb_le _ _) Hlo), (proj2 (N.ltb_lt _ _) Hhi). simpl.
  unfold read_content. simpl. rewrite Hchoices. simpl. rewrite Hmessage. done.
Qed.

(** Whenever a successful answer is processed, its text is stored under
    the key of the request and the removal of the key is scheduled five
    minutes later. *)
Lemma fire_answer_stores call key o v (w : World) :
  completion o = Normal v →
  messageCache (fire (NetSettled call key o) w) !! key = Some v ∧
  (now w + TTL, Evict key) ∈ tasks (fire (NetSettled call key o) w).
Proof.
  intros Ho. rewrite messageCache_fire, tasks_fire. simpl. rewrite Ho.
  split; [apply lookup_insert_eq|].
  apply elem_of_app. right. by apply list_elem_of_singleton.
Qed.

Lemma failure_completion o e : failure o e → completion o = Throw e.
Proof.
  unfold completion, api_post. destruct 1 as [st data Hst| |st data e Hlo Hhi Hread].
  - destruct (N.leb_spec 200 st), (N.ltb_spec st 300); simpl; try done. lia.
  - done.
  - by rewrite (proj2 (N.leb_le _ _) Hlo), (proj2 (N.ltb_lt _ _) Hhi).
Qed.

(** The errors that one task makes [handleSend] report. *)
Lemma send_errors_fire ev (w : World) :
  send_errors (console (fire ev w)) =
    send_errors (console w) ++
    match race_outcome ev with
    | Some (c, r) => if decide (c ∈ racing w) then race_errors r else []
    | None => []
    end.
Proof.
  unfold send_errors. destruct ev as [k|c k o|c].
  - simpl. by rewrite app_nil_r.
  - rewrite fire_NetSettled. unfold race_settles, race_outcome.
    destruct (completion o); simpl; case_decide; simpl;
      rewrite ?omap_app; simpl; by rewrite ?app_nil_r.
  - unfold fire, race_settles, race_outcome. case_decide; simpl;
      rewrite ?omap_app; simpl; by rewrite ?app_nil_r.
Qed.

(** While no race is open, time passing appends nothing. *)
Lemma idle_advance t (w : World) :
  racing w = ∅ →
  messages (advance t w) = messages w ∧
  isLoading (advance t w) = isLoading w ∧
  racing (advance t w) = ∅.
Proof.
  intros Hr.
  destruct (advance_ind t (λ w',
    messages w' = messages w ∧ isLoading w' = isLoading w ∧ racing w' = ∅))
    with (w := w) as (w' & Hw' & _ & ->); [|done|done].
  intros w0 d ev rest (Hm & Hl & Hr0) _ _. unfold run_task.
  rewrite messages_fire, isLoading_fire, racing_fire. simpl. rewrite Hr0.
  destruct ev as [k|c k o|c]; simpl; [done|..];
    (rewrite decide_False by set_solver; split_and!; [done|done|set_solver]).
Qed.

(** The race of the one send that is outstanding: the first of its tasks
    that is due decides it, and its message is the only one appended. *)
Lemma race_advance_exact c tr t (R : Completion Value → Prop) (w : World) :
  racing w = {[c]} → now w ≤ tr → tr ≤ t →
  (∃ ev, (tr, ev) ∈ tasks w ∧ event_call ev = Some c) →
  (∀ d ev, (d, ev) ∈ tasks w → event_call ev = Some c →
     tr ≤ d ∧ (d = tr → ∃ r, race_outcome ev = Some (c, r) ∧ R r)) →
  ∃ r, R r ∧
    messages (advance t w) = messages w ++ [race_message r tr] ∧
    racing (advance t w) = ∅ ∧ isLoading (advance t w) = false ∧
    send_errors (console (advance t w)) =
      send_errors (console w) ++ race_errors r.
Proof.
  intros Hrac Hnow Htr Hex Hq.
  set (Done := λ w' : World, ∃ r, R r ∧
    messages w' = messages w ++ [race_message r tr] ∧
    racing w' = ∅ ∧ isLoading w' = false ∧
    send_errors (console w') = send_errors (console w) ++ race_errors r).
  destruct (advance_ind t (λ w',
    (∀ d ev, (d, ev) ∈ tasks w' → event_call ev = Some c →
       tr ≤ d ∧ (d = tr → ∃ r, race_outcome ev = Some (c, r) ∧ R r)) ∧
    ((racing w' = {[c]} ∧ now w' ≤ tr ∧ messages w' = messages w ∧
      send_errors (console w') = send_errors (console w) ∧
      ∃ ev, (tr, ev) ∈ tasks w' ∧ event_call ev = Some c) ∨ Done w')))
    with (w := w) as (w' & [_ Hp] & Hdue & ->); [|by eauto 10|].
  - intros w0 d0 ev0 rest [Hq0 Hp0] Hp Hd0.
    pose proof (pop_earliest_elem _ _ _ _ Hp) as Hev0.
    split.
    + intros d ev. rewrite tasks_run_task.
      intros [Hin'|Hin']%elem_of_app Hcall.
      * eapply Hq0; [by eapply pop_earliest_rest|done].
      * apply spawn_evict in Hin' as [k Hk]. simpl in Hk. by subst ev.
    + destruct Hp0 as [(Hr0 & Hn0 & Hm0 & He0 & ev1 & Hin1 & Hc1)
                      |(r & HR & Hm & Hr0 & Hl0 & He0)].
      * pose proof (pop_earliest_least _ _ _ _ Hp _ _ Hin1) as Hleast.
        destruct (decide (event_call ev0 = Some c)) as [Hc0|Hc0].
        -- right. destruct (Hq0 _ _ Hev0 Hc0) as [Hle Hout].
           assert (d0 = tr) as -> by lia.
           destruct (Hout eq_refl) as (r & Hr & HR).
           exists r. unfold run_task. split_and!; [done|..].
           ++ rewrite messages_fire, Hr. simpl. rewrite Hr0.
              rewrite decide_True by set_solver. rewrite Hm0.
              do 3 f_equal. lia.
           ++ rewrite racing_fire, Hc0. simpl. rewrite Hr0.
              apply difference_diag_L.
           ++ rewrite isLoading_fire, Hc0. simpl. rewrite Hr0.
              by rewrite decide_True by set_solver.
           ++ rewrite send_errors_fire, Hr. simpl. rewrite Hr0.
              rewrite decide_True by set_solver. by rewrite He0.
        -- left. unfold run_task. split_and!.
           ++ rewrite racing_fire. simpl. rewrite Hr0.
              destruct (event_call ev0) as [c0|]; [|done].
              apply difference_disjoint_L.
              assert (c0 ≠ c) by congruence. set_solver.
           ++ rewrite now_fire. simpl. lia.
           ++ rewrite messages_fire. simpl. rewrite Hr0, <- Hm0.
              destruct ev0 as [k|c0 k o|c0]; simpl; [done|..];
                (rewrite decide_False; [done|];
                 intros ->%elem_of_singleton; by apply Hc0).
           ++ rewrite send_errors_fire. simpl. rewrite Hr0, <- He0.
              destruct ev0 as [k|c0 k o|c0]; simpl; rewrite ?app_nil_r; [done|..];
                (rewrite decide_False; [by rewrite app_nil_r|];
                 intros ->%elem_of_singleton; by apply Hc0).
           ++ exists ev1. split; [|done]. rewrite tasks_fire. simpl.
              apply elem_of_app. left.
              destruct (pop_earliest_inv _ _ _ _ _ Hp Hin1) as [[= -> ->]|]; done.
      * right. exists r. unfold run_task.
        rewrite messages_fire, racing_fire, isLoading_fire, send_errors_fire.
        simpl. rewrite Hr0.
        destruct ev0 as [k|c0 k o|c0]; simpl; rewrite ?app_nil_r; [done|..];
          (rewrite decide_False by set_solver; rewrite ?app_nil_r;
           split_and!; [done|done|set_solver|done|done]).
  - destruct Hp as [(_ & _ & _ & _ & ev1 & Hin1 & _)|(r & HR & Hm & Hr0 & Hl0 & He0)].
    + apply Hdue in Hin1. lia.
    + by exists r.
Qed.

(** * The claims *)

(** C1, as amended. Let [v1] be stored under a key at [t1] and [v2] under
    the same key at [t2], before the removal scheduled for [v1] is due, with
    no other task on the key due in the meantime.  Then [v2] is what a
    look-up returns from [t2] until [t1] plus five minutes, the expiry of
    [v1]; at that time the removal scheduled for [v1] empties the slot, and
    the key stays absent. *)
Theorem stale_timer_removes_newer_entry key v1 v2 t2 t (w : World) :
  quiet key t (tasks w) = true →
  now w ≤ t2 → t2 < now w + TTL → t2 ≤ t →
  let t1 := now w in
  let w2 := store key v2 (advance t2 (store key v1 w)) in
  messageCache w2 !! key = Some v2 ∧
  (t1 + TTL, Evict key) ∈ tasks w2 ∧ (t2 + TTL, Evict key) ∈ tasks w2 ∧
  messageCache (advance t w2) !! key =
    if t <? t1 + TTL then Some v2 else None.
Proof.
  rewrite quiet_spec. intros Hq Ht1 Ht2 Ht. cbv zeta.
  set (w1 := store key v1 w). set (a := advance t2 w1).
  assert (Hw1 : ∀ d ev, (d, ev) ∈ tasks w1 → touches key ev = true →
    t < d ∨ (d, ev) = (now w + TTL, Evict key)).
  { intros d ev [Hin|Hin]%elem_of_app Htouch; [left; by eapply Hq|right].
    by apply list_elem_of_singleton in Hin. }
  assert (Hqa : quiet key t2 (tasks w1) = true).
  { apply quiet_spec. intros d ev Hin Htouch.
    destruct (Hw1 _ _ Hin Htouch) as [|[= -> _]]; lia. }
  destruct (quiet_advance key t2 w1 Hqa) as [_ Ha].
  assert (Hold : (now w + TTL, Evict key) ∈ tasks a).
  { apply tasks_advance; [|lia]. apply elem_of_app. right.
    by apply list_elem_of_singleton. }
  assert (Hnow : now a = t2) by (by apply now_advance).
  assert (Hw2 : ∀ d ev, (d, ev) ∈ tasks (store key v2 a) →
    touches key ev = true → t < d ∨ ((∃ k, ev = Evict k) ∧ now w + TTL ≤ d)).
  { intros d ev [Hin|Hin]%elem_of_app Htouch.
    - destruct (Hw1 _ _ (Ha _ _ Hin Htouch) Htouch) as [|[= -> ->]]; [by left|].
      right. split; [by eexists|lia].
    - apply list_elem_of_singleton in Hin as [= -> ->]. right.
      split; [by eexists|]. simpl. lia. }
  split_and!.
  - simpl. apply lookup_insert_eq.
  - apply elem_of_app. by left.
  - apply elem_of_app. right. apply list_elem_of_singleton. simpl. by rewrite Hnow.
  - destruct (N.ltb_spec t (now w + TTL)) as [Hlt|Hge].
    + destruct (quiet_advance key t (store key v2 a)) as [-> _].
      * apply quiet_spec. intros d ev Hin Htouch.
        destruct (Hw2 _ _ Hin Htouch) as [|[_ ?]]; lia.
      * simpl. apply lookup_insert_eq.
    + apply (evict_advance key t _ (now w + TTL)); [|done|].
      * apply elem_of_app. by left.
      * intros d ev Hin Htouch.
        destruct (Hw2 _ _ Hin Htouch) as [|[? _]]; [by right|by left].
Qed.

Lemma stale_timer_removes_newer_entry_witness :
  let w2 := store "k" (VStr "new") (advance 60000 (store "k" (VStr "old") init)) in
  messageCache w2 !! "k" = Some (VStr "new") ∧
  (0 + TTL, Evict "k") ∈ tasks w2 ∧ (60000 + TTL, Evict "k") ∈ tasks w2 ∧
  messageCache (advance 300000 w2) !! "k" =
    if 300000 <? 0 + TTL then Some (VStr "new") else None.
Proof.
  apply (stale_timer_removes_newer_entry "k" (VStr "old") (VStr "new")
           60000 300000 init); [reflexivity|by vm_compute..].
Defined.

(** C1, as stated, fails. Two callers send the same pair at 0 and at
    1000, before any answer has arrived: the answer [v1] is stored at 2000
    and the answer [v2] at 6000, before the removal scheduled for [v1] is
    due.  The entry [v2] should live until 306000, but the removal scheduled
    for [v1] deletes it at 302000.  The same happens through the chat screen
    when a send is timed out and answered late (as in C10) and the text is
    sent again in between. *)
Lemma stale_timer_removes_v2_early :
  let answer text := HttpResponse 200 (chat_completion text) in
  let key := cacheKey "" "Hello" in
  (let w1 := (sendMessage (Settles 2000 (answer "v1")) "Hello" "" init).2 in
   let w2 := (sendMessage (Settles 5000 (answer "v2")) "Hello" "" (advance 1000 w1)).2 in
   messageCache (advance 2000 w2) !! key = Some (VStr "v1") ∧
   stored_at (advance 2000 w2) !! key = Some 2000 ∧
   messageCache (advance 6000 w2) !! key = Some (VStr "v2") ∧
   stored_at (advance 6000 w2) !! key = Some 6000 ∧
   tasks (advance 6000 w2) = [(2000 + TTL, Evict key); (6000 + TTL, Evict key)] ∧
   messageCache (advance 301999 w2) !! key = Some (VStr "v2") ∧
   302000 < 6000 + TTL ∧
   messageCache (advance 302000 w2) !! key = None) ∧
  (let w1 := InputBox_handleSend (Settles 20000 (answer "v1")) "Hello" init in
   let w2 := InputBox_handleSend (Settles 10000 (answer "v2")) "Hello"
               (advance 16000 w1) in
   messageCache (advance 20000 w2) !! key = Some (VStr "v1") ∧
   messageCache (advance 26000 w2) !! key = Some (VStr "v2") ∧
   stored_at (advance 26000 w2) !! key = Some 26000 ∧
   messageCache (advance 319999 w2) !! key = Some (VStr "v2") ∧
   320000 < 26000 + TTL ∧
   messageCache (advance 320000 w2) !! key = None).
Proof. split_and!; by vm_compute. Qed.

(** C2, as amended. Take two consecutive successful calls of
    [sendMessage] with the same pair, the second at [t2]: the first is a hit,
    or it is a miss answered with a completion at most five minutes before
    [t2].  If no other task on the key of the pair is due by [t2] (no stale
    removal, no answer to an earlier request for the same key), then the two
    calls send at most one request and the second returns exactly the text
    that the first returned. *)
Theorem repeated_send_served_from_cache
    net1 net2 message systemPrompt t2 (w : World) :
  reachable w →
  quiet (cacheKey systemPrompt message) t2 (tasks w) = true →
  match messageCache w !! cacheKey systemPrompt message with
  | Some _ => now w ≤ t2
  | None => ∃ latency o v,
      net1 = Settles latency o ∧ completion o = Normal v ∧
      now w + latency ≤ t2 ∧ t2 < now w + latency + TTL
  end →
  let call1 := (sendMessage net1 message systemPrompt w).1 in
  let w1 := (sendMessage net1 message systemPrompt w).2 in
  let w2 := advance t2 w1 in
  let call2 := (sendMessage net2 message systemPrompt w2).1 in
  let w3 := (sendMessage net2 message systemPrompt w2).2 in
  ∃ v, settled w2 !! call1 = Some (Normal v) ∧
       settled w3 !! call2 = Some (Normal v) ∧
       posted w3 = posted w1 ∧
       (length (posted w3) ≤ S (length (posted w)))%nat.
Proof.
  intros Hinv%reachable_inv Hq Hfirst. cbv zeta.
  pose proof Hq as Hq'. rewrite quiet_spec in Hq'.
  destruct (messageCache w !! cacheKey systemPrompt message) as [v|] eqn:Hk.
  - rewrite (sendMessage_hit _ _ _ _ _ Hk). simpl.
    set (w1 := settle _ _ _).
    assert (Hc2 : messageCache (advance t2 w1) !! cacheKey systemPrompt message
                  = Some v).
    { destruct (quiet_advance (cacheKey systemPrompt message) t2 w1) as [-> _];
        done. }
    exists v. rewrite (sendMessage_hit _ _ _ _ _ Hc2). simpl.
    rewrite lookup_insert_eq, posted_advance. split_and!; [|done|done|simpl; lia].
    rewrite settled_advance_frame; [apply lookup_insert_eq|].
    intros d ev Hin Hcall. destruct Hinv as [[_ _ Ht _ _] _].
    pose proof (Ht _ _ _ Hin Hcall). lia.
  - destruct Hfirst as (l & o & v & -> & Ho & Ht1 & Ht2).
    rewrite (sendMessage_miss _ _ _ _ Hk). simpl.
    set (w1 := set_tasks _ _).
    assert (Hc2 : messageCache (advance t2 w1) !! cacheKey systemPrompt message
                  = Some v).
    { eapply proj1, (answer_advance _ (next_call w) o v (now w + l));
        simpl; [done| |lia|done|done|].
      - apply elem_of_app. right. by apply list_elem_of_singleton.
      - intros d ev [Hin|Hin]%elem_of_app Htouch Hd.
        + pose proof (Hq' _ _ Hin Htouch). lia.
        + by apply list_elem_of_singleton in Hin. }
    exists v. rewrite (sendMessage_hit _ _ _ _ _ Hc2). simpl.
    rewrite lookup_insert_eq, posted_advance. split_and!; [|done|done|].
    + rewrite <- Ho.
      eapply (settled_advance _ (cacheKey systemPrompt message) _ (now w + l));
        simpl; [|done|].
      * apply elem_of_app. right. by apply list_elem_of_singleton.
      * intros d ev k' o' Hin ->. apply own_tasks in Hin; [|done..].
        by apply list_elem_of_singleton in Hin as [= _ _ ->].
    + subst w1. simpl. rewrite length_app. simpl. lia.
Qed.

Lemma repeated_send_served_from_cache_witness :
  let net := Settles 900 (HttpResponse 200 (chat_completion "Hi there!")) in
  let w1 := (sendMessage net "Hello" "Be brief." init).2 in
  let w2 := advance 200000 w1 in
  let w3 := (sendMessage net "Hello" "Be brief." w2).2 in
  ∃ v, settled w2 !! (sendMessage net "Hello" "Be brief." init).1 = Some (Normal v) ∧
       settled w3 !! (sendMessage net "Hello" "Be brief." w2).1 = Some (Normal v) ∧
       posted w3 = posted w1 ∧
       (length (posted w3) ≤ S (length (posted init)))%nat.
Proof.
  apply (repeated_send_served_from_cache
    (Settles 900 (HttpResponse 200 (chat_completion "Hi there!")))
    (Settles 900 (HttpResponse 200 (chat_completion "Hi there!")))
    "Hello" "Be brief." 200000 init); [apply reach_init|reflexivity|].
  exists 900, (HttpResponse 200 (chat_completion "Hi there!")), (VStr "Hi there!").
  split_and!; [reflexivity|reflexivity|by vm_compute|by vm_compute].
Defined.

(** C2, as stated, fails. Two callers send the same pair at 0 and at
    1000, before any answer has arrived: both calls miss, the answers are
    stored at 2000 and at 6000, and each store leaves a removal of the key.
    The call made at 1000 and a third call at 303000 are consecutive and
    successful, and the third is made 297 seconds after the second returned;
    yet the removal left by the first answer has emptied the slot at 302000,
    so the third call sends a request again and returns another text.  The
    same happens through the chat screen when a send is timed out and
    answered late (as in C10) and the text is sent again in between. *)
Lemma repeated_send_hits_network_again :
  let answer text := HttpResponse 200 (chat_completion text) in
  (let w1 := (sendMessage (Settles 2000 (answer "v1")) "Hello" "" init).2 in
   let w2 := (sendMessage (Settles 5000 (answer "v2")) "Hello" "" (advance 1000 w1)).2 in
   let w3 := advance 303000 w2 in
   let w4 := advance 304000
               (sendMessage (Settles 1000 (answer "v3")) "Hello" "" w3).2 in
   (sendMessage (Settles 5000 (answer "v2")) "Hello" "" (advance 1000 w1)).1 = 1%nat ∧
   (sendMessage (Settles 1000 (answer "v3")) "Hello" "" w3).1 = 2%nat ∧
   settled w3 !! 1%nat = Some (Normal (VStr "v2")) ∧
   stored_at w3 !! cacheKey "" "Hello" = Some 6000 ∧
   303000 < 6000 + TTL ∧
   messageCache w3 !! cacheKey "" "Hello" = None ∧
   settled w4 !! 2%nat = Some (Normal (VStr "v3")) ∧
   length (posted w2) = 2%nat ∧ length (posted w4) = 3%nat) ∧
  (let w1 := InputBox_handleSend (Settles 20000 (answer "v1")) "Hello" init in
   let w2 := InputBox_handleSend (Settles 10000 (answer "v2")) "Hello"
               (advance 16000 w1) in
   let w3 := advance 321000 w2 in
   let w4 := advance 322000
               (InputBox_handleSend (Settles 1000 (answer "v3")) "Hello" w3) in
   settled w3 !! 1%nat = Some (Normal (VStr "v2")) ∧
   settled w4 !! 2%nat = Some (Normal (VStr "v3")) ∧
   321000 < 26000 + TTL ∧
   length (posted w2) = 2%nat ∧ length (posted w4) = 3%nat ∧
   messages w4 =
     [ {| msg_content := VStr "Hello"; isUser := true; timestamp := 0 |};
       {| msg_content := VStr fallback; isUser := false; timestamp := 15000 |};
       {| msg_content := VStr "Hello"; isUser := true; timestamp := 16000 |};
       {| msg_content := VStr "v2"; isUser := false; timestamp := 26000 |};
       {| msg_content := VStr "Hello"; isUser := true; timestamp := 321000 |};
       {| msg_content := VStr "v3"; isUser := false; timestamp := 322000 |} ]).
Proof. split_and!; by vm_compute. Qed.

(** C3. In every reachable state, an entry of the cache was stored less
    than five minutes ago, and its removal is pending and due within five
    minutes of the store: a look-up never returns an entry past its expiry.
    In particular, once five minutes have passed since a key was last stored,
    a call of [sendMessage] with that key is a miss and sends a new request.
    (Timer callbacks run at their deadline: [advance] runs every task that
    is due before the program is called again.) *)
Theorem entries_expire (w : World) :
  reachable w →
  (∀ key v, messageCache w !! key = Some v →
     ∃ s d, stored_at w !! key = Some s ∧ s ≤ now w ∧ now w < s + TTL ∧
            (d, Evict key) ∈ tasks w ∧ now w < d ∧ d ≤ s + TTL) ∧
  (∀ net message systemPrompt s,
     stored_at w !! cacheKey systemPrompt message = Some s →
     s + TTL ≤ now w →
     messageCache w !! cacheKey systemPrompt message = None ∧
     posted (sendMessage net message systemPrompt w).2 =
       posted w ++ [request message systemPrompt]).
Proof.
  intros [[Hc Hs _ _ _] He]%reachable_inv.
  assert (Hfresh : ∀ key v, messageCache w !! key = Some v →
     ∃ s d, stored_at w !! key = Some s ∧ s ≤ now w ∧ now w < s + TTL ∧
            (d, Evict key) ∈ tasks w ∧ now w < d ∧ d ≤ s + TTL).
  { intros key v Hk. destruct (Hc _ _ Hk) as (s & d & Hst & Hin & Hd).
    exists s, d. pose proof (Hs _ _ Hst). pose proof (He _ _ Hin).
    split_and!; try done; lia. }
  split; [done|]. intros net message systemPrompt s Hst Hold.
  assert (Hmiss : messageCache w !! cacheKey systemPrompt message = None).
  { destruct (messageCache w !! _) as [v|] eqn:Hk; [|done].
    destruct (Hfresh _ _ Hk) as (s' & d & Hst' & _ & Hlt & _).
    rewrite Hst in Hst'. injection Hst' as <-. lia. }
  split; [done|]. rewrite (sendMessage_miss _ _ _ _ Hmiss). simpl.
  by destruct net.
Qed.

Lemma entries_expire_witness :
  let w := advance 300100
             (sendMessage (Settles 100 (HttpResponse 200 (chat_completion "Hi there!")))
                "Hello" "" init).2 in
  reachable w ∧
  (∀ key v, messageCache w !! key = Some v →
     ∃ s d, stored_at w !! key = Some s ∧ s ≤ now w ∧ now w < s + TTL ∧
            (d, Evict key) ∈ tasks w ∧ now w < d ∧ d ≤ s + TTL) ∧
  (∀ net message systemPrompt s,
     stored_at w !! cacheKey systemPrompt message = Some s →
     s + TTL ≤ now w →
     messageCache w !! cacheKey systemPrompt message = None ∧
     posted (sendMessage net message systemPrompt w).2 =
       posted w ++ [request message systemPrompt]).
Proof.
  assert (Hreach : reachable (advance 300100
    (sendMessage (Settles 100 (HttpResponse 200 (chat_completion "Hi there!")))
       "Hello" "" init).2)).
  { apply reach_advance; [apply reach_sendMessage, reach_init|]. by vm_compute. }
  split; [exact Hreach|]. exact (entries_expire _ Hreach).
Defined.

(** C4, as amended. When the network call of a send fails (a status
    outside 2xx, no response, or a body on which reading
    [data.choices[0].message.content] throws) or the race is timed out,
    [handleSend] resumes with an error: it appends exactly the fixed text
    as a message of the bot and stops loading.  One request was sent and none
    is sent again.  None of the steps of the failing send touches the cache:
    not the call, not the timer of the race, not the rejection of the network
    call; and the promise of [sendMessage] is rejected with the error of the
    network call when that call fails.

    Exactly the fixed text: when no other send is racing, the conversation
    afterwards is the one before, the message of the user and the fixed text,
    and nothing else, and [handleSend] has reported one error more.  And in
    any state whatever, the timer of the race and the rejection of the network
    call append the fixed text and nothing else, with the time of the step,
    when they decide the race, and nothing at all when the race was decided
    before; on the console they write the line of [handleSend] in the first
    case only, after the line of [sendMessage] for a rejection. *)
Theorem failure_surfaces_fallback net text t (w : World) :
  reachable w →
  truthy (trim text) = true →
  messageCache w !! cacheKey "" text = None →
  fails net →
  now w + decided_after net ≤ t →
  let call := next_call w in
  let w1 := handleSend net text w in
  let w' := advance t w1 in
  let fixed_text := λ at_time,
    {| msg_content := VStr "Sorry, there was an error processing your request.";
       isUser := false; timestamp := at_time |} in
  fixed_text (now w + decided_after net) ∈ messages w' ∧
  (∃ e, ConsoleError "Error sending message:" e ∈ console w') ∧
  (call ∉ racing w') ∧ isLoading w' = false ∧
  posted w' = posted w ++ [request text ""] ∧
  messageCache w1 = messageCache w ∧
  (∀ w0, messageCache (fire (RaceTimeout call) w0) = messageCache w0) ∧
  (∀ latency o e, net = Settles latency o → failure o e →
     (∀ w0, messageCache (fire (NetSettled call (cacheKey "" text) o) w0)
            = messageCache w0) ∧
     (now w + latency ≤ t → settled w' !! call = Some (Throw e))) ∧
  (racing w = ∅ →
     messages w' =
       messages w ++
         [ {| msg_content := VStr text; isUser := true; timestamp := now w |};
           fixed_text (now w + decided_after net) ] ∧
     ∃ e, send_errors (console w') = send_errors (console w) ++ [e]) ∧
  (∀ w0,
     messages (fire (RaceTimeout call) w0) =
       (if decide (call ∈ racing w0)
        then messages w0 ++ [fixed_text (now w0)] else messages w0) ∧
     console (fire (RaceTimeout call) w0) =
       (if decide (call ∈ racing w0)
        then console w0 ++
               [ConsoleError "Error sending message:" (PlainError "Request timeout")]
        else console w0)) ∧
  (∀ o e w0, failure o e →
     messages (fire (NetSettled call (cacheKey "" text) o) w0) =
       (if decide (call ∈ racing w0)
        then messages w0 ++ [fixed_text (now w0)] else messages w0) ∧
     console (fire (NetSettled call (cacheKey "" text) o) w0) =
       console w0 ++
         ConsoleError "OpenAI API Error:" e ::
         (if decide (call ∈ racing w0)
          then [ConsoleError "Error sending message:" e] else [])).
Proof.
  intros Hinv%reachable_inv Htext Hmiss Hfails Ht. cbv zeta.
  rewrite (handleSend_miss _ _ _ Hinv Htext Hmiss).
  set (w0 := suspended_send net text w).
  assert (Hex : ∃ ev, (now w + decided_after net, ev) ∈ tasks w0 ∧
                      event_call ev = Some (next_call w)).
  { simpl. destruct net as [l o|]; simpl.
    - destruct (N.le_ge_cases l 15000).
      + exists (NetSettled (next_call w) (cacheKey "" text) o). split; [|done].
        apply elem_of_app. right. apply list_elem_of_singleton.
        f_equal. lia.
      + exists (RaceTimeout (next_call w)). split; [|done].
        apply elem_of_app. left. apply elem_of_app. right.
        apply list_elem_of_singleton. f_equal. lia.
    - exists (RaceTimeout (next_call w)). split; [|done].
      apply elem_of_app. left. apply elem_of_app. right.
      by apply list_elem_of_singleton. }
  assert (Hq : ∀ d ev, (d, ev) ∈ tasks w0 → event_call ev = Some (next_call w) →
     now w + decided_after net ≤ d ∧
     (d = now w + decided_after net →
      ∃ r, race_outcome ev = Some (next_call w, r) ∧ ∃ e, r = Throw e)).
  { simpl. intros d ev Hin Hcall. rewrite <- (assoc (++)) in Hin.
    apply own_tasks in Hin; [|done..].
    apply elem_of_cons in Hin as [[= -> ->]|Hin].
    - split; [destruct net; simpl; lia|]. intros _.
      eexists. split; [reflexivity|by eexists].
    - destruct net as [l o|]; [|by apply elem_of_nil in Hin].
      apply list_elem_of_singleton in Hin as [= -> ->].
      simpl. split; [lia|]. intros Heq.
      destruct Hfails as [[e He]|Hlate]; [|lia].
      apply failure_completion in He.
      eexists. split; [reflexivity|]. rewrite He. by eexists. }
  destruct (race_advance (next_call w) (now w + decided_after net) t
    (λ r, ∃ e, r = Throw e) w0)
    as (Hrac & Hload & r & [e ->] & Hmsg & Hcon);
    [simpl; set_solver|simpl; lia|done|done|done|].
  split_and!; [done|by eexists; apply Hcon|done|done|apply posted_advance|done|..].
  - intros w2. by rewrite messageCache_fire.
  - intros l o e' -> He. apply failure_completion in He. split.
    + intros w2. by rewrite messageCache_fire, He.
    + intros Hl. rewrite <- He.
      eapply (settled_advance _ (cacheKey "" text) _ (now w + l)); simpl; [|done|].
      * apply elem_of_app. right. by apply list_elem_of_singleton.
      * intros d ev k' o' Hin ->. rewrite <- (assoc (++)) in Hin.
        apply own_tasks in Hin; [|done..].
        apply elem_of_cons in Hin as [[=]|Hin].
        by apply list_elem_of_singleton in Hin as [= _ _ ->].
  - intros Hidle.
    destruct (race_advance_exact (next_call w) (now w + decided_after net) t
      (λ r, ∃ e, r = Throw e) w0)
      as (r & [e' ->] & -> & _ & _ & ->);
      [simpl; rewrite Hidle; set_solver|simpl; lia|done|done|done|].
    simpl. split; [by rewrite <- (assoc (++))|by exists e'].
  - intros w2. rewrite messages_fire. simpl. split; [done|].
    unfold race_settles. by case_decide.
  - intros o e' w2 He. apply failure_completion in He.
    rewrite messages_fire, fire_NetSettled. simpl. rewrite He. simpl.
    split; [done|]. unfold race_settles. simpl.
    case_decide; simpl; [by rewrite <- (assoc (++))|done].
Qed.

Lemma failure_surfaces_fallback_witness :
  let net := Settles 800 (HttpResponse 500 (VObj [("error", VStr "overloaded")])) in
  let w' := advance 800 (handleSend net "Hello" init) in
  messages w' =
    [ {| msg_content := VStr "Hello"; isUser := true; timestamp := 0 |};
      {| msg_content := VStr "Sorry, there was an error processing your request.";
         isUser := false; timestamp := 800 |} ] ∧
  settled w' !! 0%nat = Some (Throw (AxiosError (Some 500))) ∧
  posted w' = [request "Hello" ""] ∧
  messageCache (handleSend net "Hello" init) = ∅.
Proof.
  destruct (failure_surfaces_fallback
    (Settles 800 (HttpResponse 500 (VObj [("error", VStr "overloaded")])))
    "Hello" 800 init)
    as (_ & _ & _ & _ & Hposted & Hcache & _ & Hnet & Hexact & _);
    [apply reach_init|reflexivity|reflexivity| |by vm_compute|].
  { left. exists (AxiosError (Some 500)). apply failure_status. cbv. intuition discriminate. }
  split_and!; [exact (proj1 (Hexact eq_refl))| |exact Hposted|exact Hcache].
  eapply Hnet; [reflexivity| |by vm_compute].
  apply failure_status. cbv. intuition discriminate.
Defined.

(** C4, as stated, fails. A 2xx response whose first choice has a message
    without content is malformed, yet no error is surfaced: [sendMessage]
    returns [undefined], stores it in the cache, and [handleSend] appends
    [undefined], not the fixed text, as the message of the bot. *)
Lemma missing_content_is_not_an_error :
  let payload :=
    VObj [("choices", VArr [VObj [("message", VObj [("role", VStr "assistant")])]])] in
  let w := advance 100
    (InputBox_handleSend (Settles 100 (HttpResponse 200 payload)) "Hello" init) in
  settled w !! 0%nat = Some (Normal VUndefined) ∧
  messageCache init !! cacheKey "" "Hello" = None ∧
  messageCache w !! cacheKey "" "Hello" = Some VUndefined ∧
  messages w =
    [ {| msg_content := VStr "Hello"; isUser := true; timestamp := 0 |};
      {| msg_content := VUndefined; isUser := false; timestamp := 100 |} ] ∧
  console w = [].
Proof. split_and!; by vm_compute. Qed.

(** C5. When the network call of a send takes longer than 15 seconds or
    never settles, the race is decided by the timer: 15 seconds after the
    send, [handleSend] resumes with the error ["Request timeout"], appends
    the fallback message and stops loading, and it stays so from then on.  A
    send never waits for the transport beyond that. *)
Theorem timeout_decides_race net text t (w : World) :
  reachable w →
  truthy (trim text) = true →
  messageCache w !! cacheKey "" text = None →
  slow net = true →
  now w + 15000 ≤ t →
  let call := next_call w in
  let w' := advance t (handleSend net text w) in
  (call ∈ racing (handleSend net text w)) ∧
  (call ∉ racing w') ∧
  isLoading w' = false ∧
  {| msg_content := VStr fallback; isUser := false; timestamp := now w + 15000 |}
    ∈ messages w' ∧
  ConsoleError "Error sending message:" (PlainError "Request timeout") ∈ console w'.
Proof.
  intros Hinv%reachable_inv Htext Hmiss Hslow Ht. simpl.
  rewrite (handleSend_miss _ _ _ Hinv Htext Hmiss).
  split; [simpl; set_solver|].
  destruct (race_advance (next_call w) (now w + 15000) t
    (λ r, r = Throw (PlainError "Request timeout")) (suspended_send net text w))
    as (Hrac & Hload & r & -> & Hmsg & Hcon); simpl.
  - set_solver.
  - lia.
  - done.
  - exists (RaceTimeout (next_call w)). split; [|done].
    apply elem_of_app. left. apply elem_of_app. right.
    by apply list_elem_of_singleton.
  - intros d ev Hin Hcall. rewrite <- (assoc (++)) in Hin.
    apply own_tasks in Hin; [|done..].
    apply elem_of_cons in Hin as [[= -> ->]|Hin].
    + split; [lia|]. intros _. by eexists.
    + destruct net as [l o|]; [|by apply elem_of_nil in Hin].
      apply list_elem_of_singleton in Hin as [= -> ->].
      simpl in Hslow. apply N.ltb_lt in Hslow. split; lia.
  - split_and!; [done|done|done|]. by apply Hcon.
Qed.

Lemma timeout_decides_race_witness :
  let net := Settles 20000 (HttpResponse 200 (chat_completion "Hi there!")) in
  reachable init ∧ truthy (trim "Hello") = true ∧
  messageCache init !! cacheKey "" "Hello" = None ∧
  slow net = true ∧ now init + 15000 ≤ 15000 ∧
  let w' := advance 15000 (handleSend net "Hello" init) in
  (next_call init ∈ racing (handleSend net "Hello" init)) ∧
  (next_call init ∉ racing w') ∧
  isLoading w' = false ∧
  {| msg_content := VStr fallback; isUser := false; timestamp := now init + 15000 |}
    ∈ messages w' ∧
  ConsoleError "Error sending message:" (PlainError "Request timeout") ∈ console w'.
Proof.
  split_and!; [apply reach_init|reflexivity|reflexivity|reflexivity|by vm_compute|].
  apply (timeout_decides_race
    (Settles 20000 (HttpResponse 200 (chat_completion "Hi there!"))) "Hello" 15000 init);
    [apply reach_init|reflexivity|reflexivity|reflexivity|by vm_compute].
Defined.

(** C6. On a cache miss answered with a 2xx response, the promise of
    [sendMessage] settles, when the answer arrives, with the content of the
    message of the first choice.  The answer is pending from the call on,
    and whenever it is processed that same value is stored under
    [cacheKey systemPrompt message] and the removal of the key is scheduled
    five minutes later; so, as long as no other task on that key is due, the
    value is in the cache from the arrival of the answer until five minutes
    later.  In particular, a send of ["Hello"] with an empty system prompt,
    answered with the completion ["Hi there!"], returns ["Hi there!"] and
    leaves it under the key of [("", "Hello")]. *)
Theorem miss_success_returns_and_caches
    message systemPrompt latency st fields first_fields more_choices
    message_fields t (w : World) :
  reachable w →
  messageCache w !! cacheKey systemPrompt message = None →
  200 ≤ st → st < 300 →
  own_property "choices" fields = VArr (VObj first_fields :: more_choices) →
  own_property "message" first_fields = VObj message_fields →
  now w + latency ≤ t →
  let key := cacheKey systemPrompt message in
  let result := own_property "content" message_fields in
  let o := HttpResponse st (VObj fields) in
  let call := (sendMessage (Settles latency o) message systemPrompt w).1 in
  let w1 := (sendMessage (Settles latency o) message systemPrompt w).2 in
  let w' := advance t w1 in
  settled w' !! call = Some (Normal result) ∧
  (now w + latency, NetSettled call key o) ∈ tasks w1 ∧
  (∀ w0, messageCache (fire (NetSettled call key o) w0) !! key = Some result ∧
         (now w0 + TTL, Evict key) ∈ tasks (fire (NetSettled call key o) w0)) ∧
  (quiet key t (tasks w) = true → t < now w + latency + TTL →
     messageCache w' !! key = Some result ∧
     (now w + latency + TTL, Evict key) ∈ tasks w') ∧
  let hello := advance latency
    (sendMessage (Settles latency (HttpResponse 200 (chat_completion "Hi there!")))
       "Hello" "" init).2 in
  settled hello !! 0%nat = Some (Normal (VStr "Hi there!")) ∧
  messageCache hello !! cacheKey "" "Hello" = Some (VStr "Hi there!").
Proof.
  intros Hinv%reachable_inv Hmiss Hlo Hhi Hchoices Hmessage Ht. cbv zeta.
  pose proof (completion_first_choice _ _ _ _ _ Hlo Hhi Hchoices Hmessage) as Ho.
  rewrite (sendMessage_miss _ _ _ _ Hmiss). split_and!.
  - simpl. rewrite <- Ho.
    eapply (settled_advance _ (cacheKey systemPrompt message) _ (now w + latency));
      simpl; [|done|].
    + apply elem_of_app. right. by apply list_elem_of_singleton.
    + intros d ev k' o' Hin ->. apply own_tasks in Hin; [|done..].
      by apply list_elem_of_singleton in Hin as [= _ _ ->].
  - simpl. apply elem_of_app. right. by apply list_elem_of_singleton.
  - intros w0. by apply fire_answer_stores.
  - simpl. intros Hq Hlt. rewrite quiet_spec in Hq.
    eapply (answer_advance _ (next_call w) _ _ (now w + latency));
      simpl; [done| |lia|done|done|].
    + apply elem_of_app. right. by apply list_elem_of_singleton.
    + intros d ev [Hin|Hin]%elem_of_app Htouch Hd.
      * pose proof (Hq _ _ Hin Htouch). lia.
      * by apply list_elem_of_singleton in Hin.
  - rewrite (sendMessage_miss _ "Hello" "" init) by done. simpl.
    change (Normal (VStr "Hi there!"))
      with (completion (HttpResponse 200 (chat_completion "Hi there!"))).
    eapply (settled_advance _ (cacheKey "" "Hello") _ latency); simpl; [|done|].
    + by apply list_elem_of_singleton.
    + by intros d ev k' o' [= _ ->]%list_elem_of_singleton [= _ ->].
  - rewrite (sendMessage_miss _ "Hello" "" init) by done. simpl.
    eapply proj1, (answer_advance (cacheKey "" "Hello") 0%nat
      (HttpResponse 200 (chat_completion "Hi there!")) (VStr "Hi there!")
      latency latency); simpl;
      [reflexivity|by apply list_elem_of_singleton|lia|lia|unfold TTL; lia|].
    by intros d ev ->%list_elem_of_singleton _ _.
Qed.

Lemma miss_success_returns_and_caches_witness :
  let fields := [("choices", VArr [VObj [("message", VObj [("content", VStr "Hi there!")])]])] in
  let net := Settles 120 (HttpResponse 200 (VObj fields)) in
  let w' := advance 120 (sendMessage net "Hello" "" init).2 in
  settled w' !! (sendMessage net "Hello" "" init).1 = Some (Normal (VStr "Hi there!")) ∧
  messageCache w' !! cacheKey "" "Hello" = Some (VStr "Hi there!") ∧
  (120 + TTL, Evict (cacheKey "" "Hello")) ∈ tasks w'.
Proof.
  destruct (miss_success_returns_and_caches "Hello" "" 120 200
    [("choices", VArr [VObj [("message", VObj [("content", VStr "Hi there!")])]])]
    [("message", VObj [("content", VStr "Hi there!")])] []
    [("content", VStr "Hi there!")] 120 init)
    as (Hret & _ & _ & Hcache & _);
    [apply reach_init|reflexivity|by vm_compute|by vm_compute|reflexivity
    |reflexivity|by vm_compute|].
  split; [exact Hret|]. apply Hcache; [reflexivity|by vm_compute].
Defined.

(** C7. On a cache hit, [sendMessage] settles its promise at once with
    the cached value: no request is sent, no task is created, and the cache,
    the conversation, the loading flag, the races and the clock are as
    before; the only trace of the call is the line ["Using cached response"]
    on the console.  On a miss, the look-up leaves the cache as it is. *)
Theorem cache_hit_has_no_effect net message systemPrompt (w : World) :
  let call := (sendMessage net message systemPrompt w).1 in
  let w' := (sendMessage net message systemPrompt w).2 in
  match messageCache w !! cacheKey systemPrompt message with
  | Some cached =>
      settled w' !! call = Some (Normal cached) ∧
      (∀ c, c ≠ call → settled w' !! c = settled w !! c) ∧
      posted w' = posted w ∧ tasks w' = tasks w ∧
      messageCache w' = messageCache w ∧ stored_at w' = stored_at w ∧
      messages w' = messages w ∧ isLoading w' = isLoading w ∧
      racing w' = racing w ∧ now w' = now w ∧
      console w' = console w ++ [ConsoleLog "Using cached response"]
  | None =>
      messageCache w' = messageCache w ∧ stored_at w' = stored_at w
  end.
Proof.
  simpl. destruct (messageCache w !! _) as [cached|] eqn:Hk.
  - rewrite (sendMessage_hit _ _ _ _ _ Hk). simpl.
    split_and!; try done; [apply lookup_insert_eq|].
    intros c Hc. by rewrite lookup_insert_ne.
  - rewrite (sendMessage_miss _ _ _ _ Hk). simpl. by destruct net.
Qed.

(** C8. On a cache miss, [sendMessage] sends exactly one request: a POST
    to [/chat/completions] whose body has the model ["gpt-3.5-turbo"], a
    system message with [systemPrompt] followed by a user message with
    [message], temperature 0.7 and 500 tokens at most; and no task sends
    another one later, whatever the transport answers. *)
Theorem miss_posts_one_request net message systemPrompt (w : World) :
  messageCache w !! cacheKey systemPrompt message = None →
  let w' := (sendMessage net message systemPrompt w).2 in
  posted w' = posted w ++
    [ {| method := "POST"; url := "/chat/completions";
         body := {| model := "gpt-3.5-turbo";
                    body_messages :=
                      [ {| role := "system"; content := systemPrompt |};
                        {| role := "user"; content := message |} ];
                    temperature := 7 # 10;
                    max_tokens := 500 |} |} ] ∧
  ∀ t, posted (advance t w') = posted w'.
Proof.
  intros Hk. simpl. split; [|intros t; apply posted_advance].
  rewrite (sendMessage_miss _ _ _ _ Hk). simpl. by destruct net.
Qed.

Lemma miss_posts_one_request_witness :
  messageCache init !! cacheKey "Be brief." "Hello" = None ∧
  let w' := (sendMessage NeverSettles "Hello" "Be brief." init).2 in
  posted w' = posted init ++
    [ {| method := "POST"; url := "/chat/completions";
         body := {| model := "gpt-3.5-turbo";
                    body_messages :=
                      [ {| role := "system"; content := "Be brief." |};
                        {| role := "user"; content := "Hello" |} ];
                    temperature := 7 # 10;
                    max_tokens := 500 |} |} ] ∧
  ∀ t, posted (advance t w') = posted w'.
Proof.
  split; [reflexivity|].
  apply (miss_posts_one_request NeverSettles "Hello" "Be brief." init).
  reflexivity.
Defined.

(** C9. The cache key is [systemPrompt + ":" + message], and it does not
    determine the pair: the system prompt ["a:b"] with the message ["c"] and
    the system prompt ["a"] with the message ["b:c"] have the same key.  So
    once the completion of the first pair is cached, a send of the second
    pair is a hit: it settles with the text stored for the first pair and
    sends no request. *)
Theorem cache_key_not_injective :
  (∀ systemPrompt message,
     cacheKey systemPrompt message = systemPrompt +:+ ":" +:+ message) ∧
  ("a:b", "c") ≠ ("a", "b:c") ∧
  cacheKey "a:b" "c" = cacheKey "a" "b:c" ∧
  ∀ net l text, 
    let w1 := (sendMessage (Settles l (HttpResponse 200 (chat_completion text)))
                 "c" "a:b" init).2 in
    let w2 := advance l w1 in
    let call := (sendMessage net "b:c" "a" w2).1 in
    let w3 := (sendMessage net "b:c" "a" w2).2 in
    settled w3 !! call = Some (Normal (VStr text)) ∧ posted w3 = posted w1.
Proof.
  split_and!; [done|done|done|]. intros net l text. simpl.
  assert (Hk : messageCache
    (advance l (sendMessage (Settles l (HttpResponse 200 (chat_completion text)))
       "c" "a:b" init).2) !! cacheKey "a" "b:c" = Some (VStr text)).
  { rewrite sendMessage_miss by done. simpl.
    eapply proj1, (answer_advance (cacheKey "a" "b:c") 0%nat
      (HttpResponse 200 (chat_completion text)) (VStr text) l l); simpl;
      [reflexivity|by apply list_elem_of_singleton|lia|lia|unfold TTL; lia|].
    by intros d ev ->%list_elem_of_singleton _ _. }
  rewrite (sendMessage_hit _ _ _ _ _ Hk). simpl.
  split; [apply lookup_insert_eq|apply posted_advance].
Qed.

(** C10. When the timer wins the race and the abandoned network call
    succeeds later, the user has been shown the fallback message, and yet
    the answer stays pending and the completion is stored whenever it is
    processed: no step of the race removes the task or changes what it does.
    So, as long as no other task on that key is due, the next send of the
    same text within five minutes of the store is accepted by the input box,
    sends no request and is answered from the cache. *)
Theorem late_answer_is_cached latency o v net2 text t2 (w : World) :
  reachable w →
  truthy (trim text) = true →
  messageCache w !! cacheKey "" text = None →
  15000 < latency →
  completion o = Normal v →
  quiet (cacheKey "" text) t2 (tasks w) = true →
  now w + latency ≤ t2 → t2 < now w + latency + TTL →
  let key := cacheKey "" text in
  let call := next_call w in
  let w1 := advance t2 (handleSend (Settles latency o) text w) in
  let w2 := InputBox_handleSend net2 text w1 in
  {| msg_content := VStr fallback; isUser := false; timestamp := now w + 15000 |}
    ∈ messages w1 ∧
  (now w + latency, NetSettled call key o)
    ∈ tasks (advance (now w + 15000) (handleSend (Settles latency o) text w)) ∧
  (∀ w0, messageCache (fire (NetSettled call key o) w0) !! key = Some v) ∧
  messageCache w1 !! key = Some v ∧
  posted w1 = posted w ++ [request text ""] ∧
  posted w2 = posted w1 ∧
  messages w2 = messages w1 ++
    [ {| msg_content := VStr text; isUser := true; timestamp := t2 |};
      {| msg_content := v; isUser := false; timestamp := t2 |} ].
Proof.
  intros Hinv%reachable_inv Htext Hmiss Hslow Ho Hq Ht1 Ht2. cbv zeta.
  rewrite (handleSend_miss _ _ _ Hinv Htext Hmiss).
  set (w0 := suspended_send (Settles latency o) text w).
  destruct (race_advance (next_call w) (now w + 15000) t2
    (λ r, r = Throw (PlainError "Request timeout")) w0)
    as (Hrac & Hload & r & -> & Hmsg & Hcon).
  { simpl. set_solver. }
  { simpl. lia. }
  { lia. }
  { exists (RaceTimeout (next_call w)). split; [|done]. simpl.
    apply elem_of_app. left. apply elem_of_app. right.
    by apply list_elem_of_singleton. }
  { simpl. intros d ev Hin Hcall. rewrite <- (assoc (++)) in Hin.
    apply own_tasks in Hin; [|done..].
    apply elem_of_cons in Hin as [[= -> ->]|Hin].
    - split; [lia|]. intros _. by eexists.
    - apply list_elem_of_singleton in Hin as [= -> ->]. split; lia. }
  destruct (answer_advance (cacheKey "" text) (next_call w) o v
    (now w + latency) t2 w0) as [Hcache _]; [done| |simpl; lia|done|done| |].
  { simpl. apply elem_of_app. right. by apply list_elem_of_singleton. }
  { rewrite quiet_spec in Hq. simpl.
    intros d ev [[Hin|Hin]%elem_of_app|Hin]%elem_of_app Htouch Hd.
    - pose proof (Hq _ _ Hin Htouch). lia.
    - by apply list_elem_of_singleton in Hin as [= -> ->].
    - by apply list_elem_of_singleton in Hin. }
  assert (Hnow : now (advance t2 w0) = t2) by (apply now_advance; simpl; lia).
  assert (Hposted : posted (advance t2 w0) = posted w ++ [request text ""])
    by apply posted_advance.
  split_and!; [done| | |done|done|..].
  - apply tasks_advance; [|lia]. simpl.
    apply elem_of_app. right. by apply list_elem_of_singleton.
  - intros w3. by apply fire_answer_stores.
  - unfold InputBox_handleSend. rewrite Htext, Hload. simpl.
    by rewrite (handleSend_hit _ _ _ v) by done.
  - unfold InputBox_handleSend. rewrite Htext, Hload. simpl.
    rewrite (handleSend_hit _ _ _ v) by done. simpl.
    by rewrite Hnow, <- (assoc (++)).
Qed.

Lemma late_answer_is_cached_witness :
  let o := HttpResponse 200 (chat_completion "Hi there!") in
  let w1 := advance 60000 (handleSend (Settles 20000 o) "Hello" init) in
  let w2 := InputBox_handleSend NeverSettles "Hello" w1 in
  {| msg_content := VStr fallback; isUser := false; timestamp := 15000 |}
    ∈ messages w1 ∧
  messageCache w1 !! cacheKey "" "Hello" = Some (VStr "Hi there!") ∧
  posted w1 = posted init ++ [request "Hello" ""] ∧
  posted w2 = posted w1 ∧
  messages w2 = messages w1 ++
    [ {| msg_content := VStr "Hello"; isUser := true; timestamp := 60000 |};
      {| msg_content := VStr "Hi there!"; isUser := false; timestamp := 60000 |} ].
Proof.
  destruct (late_answer_is_cached 20000 (HttpResponse 200 (chat_completion "Hi there!"))
           (VStr "Hi there!") NeverSettles "Hello" 60000 init)
    as (Hmsg & _ & _ & Hcache & Hp1 & Hp2 & Hm2);
    [apply reach_init|reflexivity|reflexivity|by vm_compute|reflexivity
    |reflexivity|by vm_compute|by vm_compute|].
  split_and!; [exact Hmsg|exact Hcache|exact Hp1|exact Hp2|exact Hm2].
Defined.

(** * Further properties of the code *)

(** ** The guard on blank text *)

Lemma trim_start_blank s : whitespace_only s = true → trim_start s = "".
Proof.
  induction s as [|c s IH]; [done|]. simpl.
  destruct (is_space c); [|done]. apply IH.
Qed.

Lemma trim_start_not_blank s :
  whitespace_only s = false →
  ∃ c rest, trim_start s = String c rest ∧ is_space c = false.
Proof.
  induction s as [|c s IH]; [done|]. simpl.
  destruct (is_space c) eqn:Hc; [apply IH|]. intros _. by exists c, s.
Qed.

Lemma trim_end_not_blank c rest :
  is_space c = false → truthy (trim_end (String c rest)) = true.
Proof. intros Hc. simpl. rewrite Hc. by destruct (trim_end rest). Qed.

(** [text.trim()] is falsy exactly for the texts made of white space. *)
Lemma truthy_trim text : truthy (trim text) = negb (whitespace_only text).
Proof.
  unfold trim. destruct (whitespace_only text) eqn:Hb.
  - by rewrite trim_start_blank.
  - destruct (trim_start_not_blank _ Hb) as (c & rest & -> & Hc).
    by apply trim_end_not_blank.
Qed.









(** ** The cache key *)

Lemma append_empty s : "" +:+ s = s.
Proof. reflexivity. Qed.

Lemma append_String c s t : String c s +:+ t = String c (s +:+ t).
Proof. reflexivity. Qed.

Lemma colon_free_prefix s1 s2 m1 m2 :
  no_colon s1 = true → no_colon s2 = true →
  s1 +:+ ":" +:+ m1 = s2 +:+ ":" +:+ m2 → s1 = s2 ∧ m1 = m2.
Proof.
  revert s2. induction s1 as [|c1 s1 IH]; intros [|c2 s2];
    repeat (rewrite append_empty || rewrite append_String); cbn [no_colon].
  - intros _ _ [= ->]. done.
  - intros _ [Hc _]%andb_prop [= <- _]. done.
  - intros [Hc _]%andb_prop _ [= -> _]. done.
  - intros [_ H1]%andb_prop [_ H2]%andb_prop [= -> Heq].
    destruct (IH _ H1 H2 Heq) as [-> ->]. done.
Qed.

Lemma length_append s t :
  String.length (s +:+ t) = (String.length s + String.length t)%nat.
Proof.
  induction s as [|c s IH]; [done|].
  rewrite append_String. simpl. by rewrite IH.
Qed.

Lemma append_inv_tail s1 s2 t : s1 +:+ t = s2 +:+ t → s1 = s2.
Proof.
  revert s2. induction s1 as [|c1 s1 IH]; intros [|c2 s2];
    repeat (rewrite append_empty || rewrite append_String); [done|..].
  - intros Heq. apply (f_equal String.length) in Heq.
    cbn [String.length] in Heq. rewrite length_append in Heq. lia.
  - intros Heq. apply (f_equal String.length) in Heq.
    cbn [String.length] in Heq. rewrite length_append in Heq. lia.
  - intros [= -> Heq]. by rewrite (IH _ Heq).
Qed.

(** X2. For a given system prompt the cache key determines the message,
    and for a given message it determines the system prompt; and among the
    system prompts without a colon, it determines the pair.  In particular
    the sends of the chat screen, whose system prompt is always empty, share
    a key only when they send the same text. *)
Theorem cache_key_determines_message :
  (∀ systemPrompt m1 m2,
     cacheKey systemPrompt m1 = cacheKey systemPrompt m2 → m1 = m2) ∧
  (∀ s1 s2 message,
     cacheKey s1 message = cacheKey s2 message → s1 = s2) ∧
  (∀ s1 s2 m1 m2,
     no_colon s1 = true → no_colon s2 = true →
     cacheKey s1 m1 = cacheKey s2 m2 → s1 = s2 ∧ m1 = m2).
Proof.
  split_and!.
  - intros s m1 m2 Heq. unfold cacheKey in Heq.
    apply (inj (String.append s)) in Heq. by injection Heq.
  - intros s1 s2 m. apply append_inv_tail.
  - intros s1 s2 m1 m2. apply colon_free_prefix.
Qed.

(** ** The errors of the network step *)




(** ** The keys of the rendered list *)

#[global] Instance keyExtractor_inj : Inj (=) (=) keyExtractor.
Proof.
  intros i j Heq. unfold keyExtractor in Heq.
  apply (inj (String.append "msg-")) in Heq. by apply (inj pretty) in Heq.
Qed.

(** X4. The keys that [keyExtractor] gives to the items of the rendered
    conversation are pairwise distinct, whatever the conversation. *)
Theorem list_keys_distinct (l : list Message) :
  NoDup (keyExtractor <$> seq 0 (length l)) ∧
  (∀ i j, keyExtractor i = keyExtractor j → i = j).
Proof.
  split; [|apply keyExtractor_inj].
  apply (NoDup_fmap_2 keyExtractor), NoDup_seq.
Qed.

(** ** The conversation only grows *)

Lemma messages_sendMessage net message systemPrompt (w : World) :
  messages (sendMessage net message systemPrompt w).2 = messages w ∧
  now (sendMessage net message systemPrompt w).2 = now w ∧
  posted w `prefix_of` posted (sendMessage net message systemPrompt w).2.
Proof.
  unfold sendMessage. simpl.
  destruct (messageCache w !! _); [|destruct net]; simpl;
    split_and!; try done; by apply prefix_app_r.
Qed.

(** What a send appends at once, in full. *)
Lemma messages_handleSend_now net text (w : World) :
  truthy (trim text) = true →
  now (handleSend net text w) = now w ∧
  posted w `prefix_of` posted (handleSend net text w) ∧
  ∃ more, messages (handleSend net text w) =
    messages w ++
      {| msg_content := VStr text; isUser := true; timestamp := now w |} :: more ∧
    Forall (λ m, isUser m = false ∧ timestamp m = now w) more.
Proof.
  intros Htext. rewrite handleSend_eq, Htext. simpl.
  unfold sendMessage. simpl.
  destruct (messageCache w !! cacheKey "" text) as [v|]; simpl.
  - rewrite lookup_insert_eq. simpl. split_and!; [done|done|].
    eexists. rewrite <- (assoc (++)). split; [done|]. by repeat constructor.
  - destruct net as [l o|]; simpl;
      (destruct (settled w !! next_call w) as [[?|?]|]; simpl;
       (split_and!; [done|by apply prefix_app_r|]);
       [eexists; rewrite <- (assoc (++)); split; [done|]; by repeat constructor..
       |exists []; split; [done|constructor]]).
Qed.

Lemma handleSend_blank net text (w : World) :
  truthy (trim text) = false → handleSend net text w = w.
Proof. intros Htext. unfold handleSend. by rewrite Htext. Qed.

Lemma messages_fire_prefix ev (w : World) :
  messages w `prefix_of` messages (fire ev w).
Proof.
  rewrite messages_fire. destruct (race_outcome ev) as [[c r]|]; [|done].
  case_decide; [by apply prefix_app_r|done].
Qed.

Lemma messages_advance_prefix t (w : World) :
  messages w `prefix_of` messages (advance t w).
Proof.
  destruct (advance_ind t (λ w', messages w `prefix_of` messages w'))
    with (w := w) as (w' & Hp & _ & ->); [|done|done].
  intros w0 d ev rest Hp _ _. etrans; [exact Hp|].
  unfold run_task. etrans; [|apply messages_fire_prefix]. done.
Qed.

(** X5. Whatever the program goes through (sends of the chat screen and
    of the input box, calls of [sendMessage], time passing), the
    conversation and the list of the requests sent only grow at their end:
    no message and no request is ever dropped, changed or reordered; and the
    clock never goes back. *)
Theorem history_only_grows (w w' : World) :
  steps w w' →
  messages w `prefix_of` messages w' ∧
  posted w `prefix_of` posted w' ∧
  now w ≤ now w'.
Proof.
  induction 1 as [|net message systemPrompt w' _ (Hm & Hp & Hn)
                  |net text w' _ (Hm & Hp & Hn)
                  |net text w' _ (Hm & Hp & Hn)
                  |t w' _ (Hm & Hp & Hn) Hle].
  - done.
  - destruct (messages_sendMessage net message systemPrompt w') as (-> & -> & Hp').
    split_and!; [done| |done]. by etrans.
  - destruct (truthy (trim text)) eqn:Htext.
    + destruct (messages_handleSend_now net text w' Htext)
        as (-> & Hp' & more & -> & _).
      split_and!; [|by etrans|done]. etrans; [exact Hm|]. by apply prefix_app_r.
    + by rewrite handleSend_blank.
  - unfold InputBox_handleSend.
    destruct (truthy (trim text)) eqn:Htext; simpl; [|done].
    destruct (negb (isLoading w')); [|done].
    destruct (messages_handleSend_now net text w' Htext)
      as (-> & Hp' & more & -> & _).
    split_and!; [|by etrans|done]. etrans; [exact Hm|]. by apply prefix_app_r.
  - rewrite posted_advance, now_advance by done.
    split_and!; [|done|lia]. etrans; [exact Hm|]. apply messages_advance_prefix.
Qed.

Lemma history_only_grows_witness :
  let answer := HttpResponse 200 (chat_completion "Hi there!") in
  let w := handleSend (Settles 700 answer) "Hello" init in
  let w' := handleSend NeverSettles "How are you?" (advance 5000 w) in
  messages w `prefix_of` messages w' ∧
  posted w `prefix_of` posted w' ∧
  now w ≤ now w'.
Proof.
  apply (history_only_grows
    (handleSend (Settles 700 (HttpResponse 200 (chat_completion "Hi there!")))
       "Hello" init)).
  apply steps_handleSend, steps_advance; [apply steps_refl|by vm_compute].
Defined.

(** ** The conversation is in the order of time *)

Lemma timely_nil t : timely [] t.
Proof. split; [|constructor]. by intros i j m1 m2 _ ?. Qed.

Lemma timely_later l t t' : timely l t → t ≤ t' → timely l t'.
Proof.
  intros [Hc Hf] Hle. split; [done|].
  eapply Forall_impl; [exact Hf|]. simpl. intros. lia.
Qed.

Lemma timely_snoc l t m : timely l t → timestamp m = t → timely (l ++ [m]) t.
Proof.
  intros [Hc Hf] Hm. split.
  - intros i j m1 m2 Hij H1 H2.
    destruct (decide (j < length l)%nat) as [Hj|Hj].
    + rewrite lookup_app_l in H1 by lia. rewrite lookup_app_l in H2 by lia.
      exact (Hc i j m1 m2 Hij H1 H2).
    + assert (m2 = m) as ->.
      { rewrite lookup_app_r in H2 by lia.
        destruct (j - length l)%nat; simpl in H2; [by injection H2|done]. }
      destruct (decide (i < length l)%nat) as [Hi|Hi].
      * rewrite lookup_app_l in H1 by lia.
        rewrite Forall_forall in Hf.
        pose proof (Hf _ (list_elem_of_lookup_2 _ _ _ H1)). simpl in *. lia.
      * rewrite lookup_app_r in H1 by lia.
        destruct (i - length l)%nat; simpl in H1; [|done].
        injection H1 as ->. lia.
  - apply Forall_app. split; [done|]. constructor; [lia|constructor].
Qed.

Lemma timely_app l t more :
  timely l t → Forall (λ m, timestamp m = t) more → timely (l ++ more) t.
Proof.
  intros Hl Hmore. revert l Hl.
  induction Hmore as [|m more Hm _ IH]; intros l Hl.
  - by rewrite app_nil_r.
  - rewrite cons_middle, (assoc (++)). apply IH. by apply timely_snoc.
Qed.

Lemma timely_fire ev (w : World) :
  timely (messages w) (now w) → timely (messages (fire ev w)) (now (fire ev w)).
Proof.
  intros Ht. rewrite messages_fire, now_fire.
  destruct (race_outcome ev) as [[c r]|]; [|done].
  case_decide; [|done]. apply timely_snoc; [done|]. by destruct r.
Qed.

Lemma timely_advance t (w : World) :
  now w ≤ t →
  timely (messages w) (now w) →
  timely (messages (advance t w)) (now (advance t w)).
Proof.
  intros Hle Ht.
  destruct (advance_ind t (λ w', timely (messages w') (now w') ∧ now w' ≤ t))
    with (w := w) as (w' & [Ht' Hle'] & _ & ->); [|done|].
  - intros w0 d ev rest [Ht0 Hle0] _ Hd. split.
    + unfold run_task. apply timely_fire. simpl.
      eapply timely_later; [exact Ht0|lia].
    + rewrite now_run_task. lia.
  - simpl. eapply timely_later; [exact Ht'|lia].
Qed.

(** X6. In every reachable state the conversation is in chronological
    order: each message carries the time at which it was appended, the
    timestamps never decrease along the conversation, and none lies in the
    future. *)
Theorem conversation_is_chronological (w : World) :
  reachable w →
  chronological (messages w) ∧
  ∀ m, m ∈ messages w → timestamp m ≤ now w.
Proof.
  intros Hreach.
  assert (timely (messages w) (now w)) as [Hc Hf].
  { induction Hreach as [|net message systemPrompt w _ IH|net text w _ IH
                         |t w _ IH Hle].
    - apply timely_nil.
    - by destruct (messages_sendMessage net message systemPrompt w) as (-> & -> & _).
    - destruct (truthy (trim text)) eqn:Htext.
      + destruct (messages_handleSend_now net text w Htext)
          as (-> & _ & more & -> & Hmore).
        apply timely_app; [done|]. constructor; [done|].
        eapply Forall_impl; [exact Hmore|]. by intros m [_ ?].
      + by rewrite handleSend_blank.
    - by apply timely_advance. }
  split; [done|]. by apply Forall_forall.
Qed.

Lemma conversation_is_chronological_witness :
  let answer := HttpResponse 200 (chat_completion "Hi there!") in
  let w := advance 20000
    (handleSend NeverSettles "How are you?"
       (advance 5000 (handleSend (Settles 700 answer) "Hello" init))) in
  reachable w ∧
  chronological (messages w) ∧
  ∀ m, m ∈ messages w → timestamp m ≤ now w.
Proof.
  assert (Hreach : reachable (advance 20000
    (handleSend NeverSettles "How are you?"
       (advance 5000
          (handleSend (Settles 700 (HttpResponse 200 (chat_completion "Hi there!")))
             "Hello" init))))).
  { apply reach_advance; [|by vm_compute].
    apply reach_handleSend, reach_advance; [|by vm_compute].
    apply reach_handleSend, reach_init. }
  split; [exact Hreach|]. exact (conversation_is_chronological _ Hreach).
Defined.

(** ** One send at a time, one reply for each *)

Lemma turns_snoc l m : turns (l ++ [m]) = turn (turns l) m.
Proof. unfold turns. by rewrite foldl_app. Qed.

Lemma ui_reachable_reachable (w : World) : ui_reachable w → reachable w.
Proof.
  induction 1; [apply reach_init|by apply reachable_InputBox
               |by apply reach_advance].
Qed.

Lemma in_turn_fire ev (w : World) : in_turn w → in_turn (fire ev w).
Proof.
  intros [Ht Hr]. unfold in_turn.
  rewrite messages_fire, isLoading_fire, racing_fire.
  assert (Hcase : ∀ c r,
    (if decide (c ∈ racing w)
     then turns (messages w ++ [race_message r (now w)]) = Some false
     else turns (messages w) = Some (isLoading w)) ∧
    (if (if decide (c ∈ racing w) then false else isLoading w)
     then ∃ c0, racing w ∖ {[c]} = {[c0]} else racing w ∖ {[c]} = ∅)).
  { intros c r. case_decide as Hin.
    - destruct (isLoading w).
      + destruct Hr as [c0 Hr]. rewrite Hr in Hin |- *.
        apply elem_of_singleton in Hin as ->.
        rewrite turns_snoc, Ht. split; [by destruct r|].
        apply difference_diag_L.
      + rewrite Hr in Hin. by apply not_elem_of_empty in Hin.
    - split; [done|]. destruct (isLoading w).
      + destruct Hr as [c0 Hr]. exists c0. rewrite Hr in Hin |- *.
        apply difference_disjoint_L. set_solver.
      + rewrite Hr. apply difference_disjoint_L. set_solver. }
  destruct ev as [k|c k o|c]; simpl; [done|..].
  - destruct (Hcase c (completion o)) as [H1 H2]. by case_decide.
  - destruct (Hcase c (Throw (PlainError "Request timeout"))) as [H1 H2].
    by case_decide.
Qed.

Lemma in_turn_advance t (w : World) : in_turn w → in_turn (advance t w).
Proof.
  intros Hw.
  destruct (advance_ind t in_turn) with (w := w) as (w' & Hw' & _ & ->);
    [|done|done].
  intros w0 d ev rest Hw0 _ _. unfold run_task. by apply in_turn_fire.
Qed.

Lemma in_turn_InputBox net text (w : World) :
  inv w → in_turn w → in_turn (InputBox_handleSend net text w).
Proof.
  intros Hinv Hw. unfold InputBox_handleSend.
  destruct (truthy (trim text)) eqn:Htext; [|done].
  destruct (isLoading w) eqn:Hload; [done|]. simpl.
  destruct Hw as [Ht Hr]. rewrite Hload in Ht, Hr.
  destruct (messageCache w !! cacheKey "" text) as [v|] eqn:Hk.
  - rewrite (handleSend_hit _ _ _ v) by done. unfold in_turn. simpl.
    by rewrite !turns_snoc, Ht.
  - rewrite handleSend_miss by done. unfold in_turn. simpl.
    rewrite turns_snoc, Ht. split; [done|].
    exists (next_call w). rewrite Hr. set_solver.
Qed.

Lemma in_turn_ui_reachable (w : World) : ui_reachable w → in_turn w.
Proof.
  induction 1 as [|net text w Hw IH|t w Hw IH Hle].
  - done.
  - apply in_turn_InputBox; [|done].
    by apply reachable_inv, ui_reachable_reachable.
  - by apply in_turn_advance.
Qed.

(** X7. Through the input box, the user and the bot speak in turn: in
    every state that the chat screen reaches, the conversation is a sequence
    of pairs, a message of the user followed by one message of the bot, with
    one more message of the user at the end exactly when the screen is
    loading; and then exactly one send is outstanding, none otherwise. *)
Theorem conversation_takes_turns (w : World) :
  ui_reachable w →
  turns (messages w) = Some (isLoading w) ∧
  (isLoading w = true → ∃ c, racing w = {[c]}) ∧
  (isLoading w = false → racing w = ∅) ∧
  (size (racing w) ≤ 1)%nat.
Proof.
  intros [Ht Hr]%in_turn_ui_reachable. split; [done|].
  destruct (isLoading w).
  - destruct Hr as [c ->]. split_and!; [by eexists|done|].
    by rewrite size_singleton.
  - rewrite Hr. split_and!; [done|done|]. rewrite size_empty. lia.
Qed.

Lemma conversation_takes_turns_witness :
  let answer := HttpResponse 200 (chat_completion "Hi there!") in
  let w := InputBox_handleSend NeverSettles "How are you?"
    (advance 5000 (InputBox_handleSend (Settles 700 answer) "Hello" init)) in
  ui_reachable w ∧
  turns (messages w) = Some (isLoading w) ∧
  (isLoading w = true → ∃ c, racing w = {[c]}) ∧
  (isLoading w = false → racing w = ∅) ∧
  (size (racing w) ≤ 1)%nat.
Proof.
  assert (Hreach : ui_reachable
    (InputBox_handleSend NeverSettles "How are you?"
       (advance 5000
          (InputBox_handleSend
             (Settles 700 (HttpResponse 200 (chat_completion "Hi there!")))
             "Hello" init)))).
  { apply ui_send, ui_advance; [|by vm_compute]. apply ui_send, ui_init. }
  split; [exact Hreach|]. exact (conversation_takes_turns _ Hreach).
Defined.

(** X8. Every send of the input box gets exactly one reply, within 15
    seconds, whatever the transport does.  When the screen is not loading and
    the text is not blank, the send appends the message of the user, and by
    15 seconds later exactly one message of the bot has followed it, loading
    has stopped and no race is open.  The reply is the cached text, at once,
    on a cache hit; on a miss it is what [sendMessage] read from the answer
    (or the fixed text when the call failed) if the transport answered in
    less than 15 seconds, and the fixed text at 15 seconds if it took longer
    or never answered. *)
Theorem every_send_gets_one_reply net text t (w : World) :
  ui_reachable w →
  isLoading w = false →
  whitespace_only text = false →
  now w + 15000 ≤ t →
  let w' := advance t (InputBox_handleSend net text w) in
  ∃ reply,
    messages w' = messages w ++
      [ {| msg_content := VStr text; isUser := true; timestamp := now w |};
        reply ] ∧
    isUser reply = false ∧
    now w ≤ timestamp reply ∧ timestamp reply ≤ now w + 15000 ∧
    isLoading w' = false ∧ racing w' = ∅ ∧
    match messageCache w !! cacheKey "" text with
    | Some cached =>
        reply = {| msg_content := cached; isUser := false; timestamp := now w |}
    | None =>
        match net with
        | Settles latency o =>
            (latency < 15000 →
             reply = race_message (completion o) (now w + latency)) ∧
            (15000 < latency →
             reply = {| msg_content := VStr fallback; isUser := false;
                        timestamp := now w + 15000 |})
        | NeverSettles =>
            reply = {| msg_content := VStr fallback; isUser := false;
                       timestamp := now w + 15000 |}
        end
    end.
Proof.
  intros Hui Hload Hblank Ht. cbv zeta.
  pose proof (in_turn_ui_reachable _ Hui) as [_ Hr]. rewrite Hload in Hr.
  pose proof (reachable_inv _ (ui_reachable_reachable _ Hui)) as Hinv.
  assert (Htext : truthy (trim text) = true)
    by (by rewrite truthy_trim, Hblank).
  unfold InputBox_handleSend. rewrite Htext, Hload. simpl.
  destruct (messageCache w !! cacheKey "" text) as [v|] eqn:Hk.
  - rewrite (handleSend_hit _ _ _ v) by done.
    edestruct idle_advance as (-> & -> & ->); [done|]. simpl.
    eexists. rewrite <- (assoc (++)). split_and!; try done; simpl; lia.
  - rewrite handleSend_miss by done.
    destruct (race_advance_exact (next_call w) (now w + decided_after net) t
      (λ r, match net with
            | Settles l o =>
                (l < 15000 → r = completion o) ∧
                (15000 < l → r = Throw (PlainError "Request timeout"))
            | NeverSettles => r = Throw (PlainError "Request timeout")
            end) (suspended_send net text w))
      as (r & HR & -> & -> & -> & _).
    { simpl. rewrite Hr. set_solver. }
    { simpl. lia. }
    { destruct net; simpl; lia. }
    { simpl. destruct net as [l o|]; simpl.
      - destruct (N.le_ge_cases l 15000).
        + exists (NetSettled (next_call w) (cacheKey "" text) o). split; [|done].
          apply elem_of_app. right. apply list_elem_of_singleton.
          f_equal. lia.
        + exists (RaceTimeout (next_call w)). split; [|done].
          apply elem_of_app. left. apply elem_of_app. right.
          apply list_elem_of_singleton. f_equal. lia.
      - exists (RaceTimeout (next_call w)). split; [|done].
        apply elem_of_app. left. apply elem_of_app. right.
        by apply list_elem_of_singleton. }
    { simpl. intros d ev Hin Hcall. rewrite <- (assoc (++)) in Hin.
      apply own_tasks in Hin; [|done..].
      apply elem_of_cons in Hin as [[= -> ->]|Hin].
      - split; [destruct net; simpl; lia|]. intros Heq.
        eexists. split; [reflexivity|].
        destruct net as [l o|]; [|done]. simpl in Heq. split; [lia|done].
      - destruct net as [l o|]; [|by apply elem_of_nil in Hin].
        apply list_elem_of_singleton in Hin as [= -> ->].
        simpl. split; [lia|]. intros Heq.
        eexists. split; [reflexivity|]. split; [done|lia]. }
    exists (race_message r (now w + decided_after net)). simpl.
    rewrite <- (assoc (++)).
    split_and!; [done|by destruct r|destruct r; simpl; lia
                |destruct net, r; simpl; lia|done|done|].
    destruct net as [l o|]; simpl.
    + destruct HR as [Hfast Hslow]. split.
      * intros Hl. rewrite (Hfast Hl). do 2 f_equal. lia.
      * intros Hl. rewrite (Hslow Hl). simpl. do 2 f_equal. lia.
    + by rewrite HR.
Qed.

Lemma every_send_gets_one_reply_witness :
  let net := Settles 700 (HttpResponse 200 (chat_completion "Hi there!")) in
  let w' := advance 15000 (InputBox_handleSend net "Hello" init) in
  messages w' =
    [ {| msg_content := VStr "Hello"; isUser := true; timestamp := 0 |};
      {| msg_content := VStr "Hi there!"; isUser := false; timestamp := 700 |} ] ∧
  isLoading w' = false ∧ racing w' = ∅.
Proof.
  destruct (every_send_gets_one_reply
    (Settles 700 (HttpResponse 200 (chat_completion "Hi there!"))) "Hello"
    15000 init)
    as (reply & Hm & _ & _ & _ & Hl & Hr & Hreply);
    [apply ui_init|reflexivity|reflexivity|by vm_compute|].
  simpl in Hreply. destruct Hreply as [Hfast _].
  rewrite Hfast in Hm by (by vm_compute). done.
Defined.

(** ** Requests and calls *)

Lemma hits_app l1 l2 : hits (l1 ++ l2) = (hits l1 + hits l2)%nat.
Proof. apply sum_list_with_app. Qed.

Lemma hits_fire ev (w : World) : hits (console (fire ev w)) = hits (console w).
Proof.
  destruct ev as [k|c k o|c].
  - done.
  - rewrite fire_NetSettled. unfold race_settles.
    destruct (completion o); simpl; case_decide; simpl;
      rewrite ?hits_app; simpl; lia.
  - unfold fire, race_settles. case_decide; simpl; rewrite ?hits_app; simpl; lia.
Qed.

Lemma hits_advance t (w : World) :
  hits (console (advance t w)) = hits (console w).
Proof.
  destruct (advance_ind t (λ w', hits (console w') = hits (console w)))
    with (w := w) as (w' & Hp & _ & ->); [|done|done].
  intros w0 d ev rest Hp _ _. unfold run_task. by rewrite hits_fire.
Qed.

(** X9. In every reachable state, the requests sent and the cache hits
    reported add up to the calls of [sendMessage]: each call either sends
    exactly one request or reports a hit, and nothing else ever sends a
    request (no retry, no request from a timer or from an answer). *)
Theorem one_request_or_one_hit_per_call (w : World) :
  reachable w →
  (length (posted w) + hits (console w))%nat = next_call w.
Proof.
  induction 1 as [|net message systemPrompt w _ IH|net text w _ IH
                  |t w _ IH Hle].
  - done.
  - unfold sendMessage. simpl.
    destruct (messageCache w !! _); [|destruct net]; simpl;
      rewrite ?hits_app, ?length_app; simpl; lia.
  - rewrite handleSend_eq. destruct (negb (truthy (trim text))); [done|].
    cbv zeta. unfold sendMessage. simpl.
    destruct (messageCache w !! _); simpl.
    + rewrite lookup_insert_eq. simpl. rewrite hits_app. simpl. lia.
    + destruct net as [l o|]; simpl;
        (destruct (settled w !! next_call w) as [[?|?]|]; simpl;
         rewrite ?hits_app, ?length_app; simpl; lia).
  - by rewrite posted_advance, hits_advance, next_call_advance.
Qed.

Lemma one_request_or_one_hit_per_call_witness :
  let answer := HttpResponse 200 (chat_completion "Hi there!") in
  let w := handleSend NeverSettles "Hello"
    (advance 5000 (handleSend (Settles 700 answer) "Hello" init)) in
  reachable w ∧ length (posted w) = 1%nat ∧ hits (console w) = 1%nat ∧
  next_call w = 2%nat.
Proof.
  assert (Hreach : reachable (handleSend NeverSettles "Hello"
    (advance 5000
       (handleSend (Settles 700 (HttpResponse 200 (chat_completion "Hi there!")))
          "Hello" init)))).
  { apply reach_handleSend, reach_advance; [|by vm_compute].
    apply reach_handleSend, reach_init. }
  pose proof (one_request_or_one_hit_per_call _ Hreach) as Hsum.
  split_and!; [exact Hreach|reflexivity|reflexivity|].
  rewrite <- Hsum. reflexivity.
Defined.

(** ** Failures are not cached *)




(** ** The cache empties itself *)

(** Without an answer pending, time passing stores nothing. *)
Lemma stored_at_advance_idle t (w : World) :
  (∀ d ev, (d, ev) ∈ tasks w → ∃ k, ev = Evict k ∨ ∃ c, ev = RaceTimeout c) →
  stored_at (advance t w) = stored_at w.
Proof.
  intros Hq.
  destruct (advance_ind t (λ w',
    (∀ d ev, (d, ev) ∈ tasks w' → ∃ k, ev = Evict k ∨ ∃ c, ev = RaceTimeout c) ∧
    stored_at w' = stored_at w))
    with (w := w) as (w' & [_ Hp] & _ & ->); [|done|done].
  intros w0 d0 ev0 rest [Hq0 Hs0] Hp Hd0.
  pose proof (pop_earliest_elem _ _ _ _ Hp) as Hev0.
  split.
  - intros d ev. rewrite tasks_run_task.
    intros [Hin|Hin]%elem_of_app.
    + apply (Hq0 d). by eapply pop_earliest_rest.
    + apply spawn_evict in Hin as [k Hk]. simpl in Hk. exists k. by left.
  - unfold run_task. rewrite stored_at_fire. simpl.
    destruct (Hq0 _ _ Hev0) as [k [->|[c ->]]]; done.
Qed.

(** X11. The cache empties itself: when no answer of the transport is
    pending, five minutes later the cache is empty, whatever it held. *)
Theorem idle_cache_empties t (w : World) :
  reachable w →
  (∀ d ev, (d, ev) ∈ tasks w → ∃ k, ev = Evict k ∨ ∃ c, ev = RaceTimeout c) →
  now w + TTL ≤ t →
  messageCache (advance t w) = ∅.
Proof.
  intros Hreach Hidle Ht.
  assert (Hreach' : reachable (advance t w)) by (apply reach_advance; [done|lia]).
  destruct (reachable_inv _ Hreach) as [[_ Hs _ _ _] _].
  destruct (reachable_inv _ Hreach') as [[Hc' _ _ _ _] He'].
  apply map_empty. intros key.
  destruct (messageCache (advance t w) !! key) as [v|] eqn:Hk; [|done].
  destruct (Hc' _ _ Hk) as (s & d & Hst & Hin & Hd).
  rewrite stored_at_advance_idle in Hst by done.
  pose proof (Hs _ _ Hst). pose proof (He' _ _ Hin) as Hlt.
  rewrite now_advance in Hlt by lia. lia.
Qed.

Lemma idle_cache_empties_witness :
  let answer := HttpResponse 200 (chat_completion "Hi there!") in
  let w := advance 20000 (handleSend (Settles 700 answer) "Hello" init) in
  messageCache w !! cacheKey "" "Hello" = Some (VStr "Hi there!") ∧
  messageCache (advance 320000 w) = ∅.
Proof.
  split; [reflexivity|].
  apply (idle_cache_empties 320000
    (advance 20000
       (handleSend (Settles 700 (HttpResponse 200 (chat_completion "Hi there!")))
          "Hello" init))).
  - apply reach_advance; [apply reach_handleSend, reach_init|by vm_compute].
  - intros d ev Hin. vm_compute in Hin.
    apply list_elem_of_singleton in Hin as [= -> ->]. eexists. by left.
  - by vm_compute.
Defined.

(** ** What the chat screen sends *)

(** X12. Every request that the chat screen sends carries an empty system
    message and one message of the user whose text is not blank: the text of
    one send, as typed, and nothing of the earlier conversation. *)
Theorem screen_requests_are_single_turn (w : World) :
  ui_reachable w →
  Forall (λ req, ∃ text,
            whitespace_only text = false ∧
            method req = "POST" ∧ url req = "/chat/completions" ∧
            body_messages (body req) =
              [ {| role := "system"; content := "" |};
                {| role := "user"; content := text |} ])
         (posted w).
Proof.
  induction 1 as [|net text w Hw IH|t w Hw IH Hle].
  - constructor.
  - unfold InputBox_handleSend.
    destruct (truthy (trim text)) eqn:Htext; [|done].
    destruct (negb (isLoading w)); [|done]. simpl.
    rewrite handleSend_eq, Htext. simpl. unfold sendMessage. simpl.
    assert (Hnew : Forall (λ req, ∃ text,
              whitespace_only text = false ∧
              method req = "POST" ∧ url req = "/chat/completions" ∧
              body_messages (body req) =
                [ {| role := "system"; content := "" |};
                  {| role := "user"; content := text |} ])
           (posted w ++ [request text ""])).
    { apply Forall_app. split; [done|]. constructor; [|constructor].
      exists text. split_and!; try done.
      rewrite truthy_trim in Htext. by destruct (whitespace_only text). }
    destruct (messageCache w !! _); simpl.
    + by rewrite lookup_insert_eq.
    + destruct net as [l o|]; simpl;
        (destruct (settled w !! next_call w) as [[?|?]|]; simpl; done).
  - by rewrite posted_advance.
Qed.

Lemma screen_requests_are_single_turn_witness :
  let answer := HttpResponse 200 (chat_completion "Hi there!") in
  let w := InputBox_handleSend NeverSettles "How are you?"
    (advance 5000 (InputBox_handleSend (Settles 700 answer) "Hello" init)) in
  length (posted w) = 2%nat ∧
  Forall (λ req, ∃ text,
            whitespace_only text = false ∧
            method req = "POST" ∧ url req = "/chat/completions" ∧
            body_messages (body req) =
              [ {| role := "system"; content := "" |};
                {| role := "user"; content := text |} ])
         (posted w).
Proof.
  split; [reflexivity|].
  apply (screen_requests_are_single_turn
    (InputBox_handleSend NeverSettles "How are you?"
       (advance 5000
          (InputBox_handleSend
             (Settles 700 (HttpResponse 200 (chat_completion "Hi there!")))
             "Hello" init)))).
  apply ui_send, ui_advance; [|by vm_compute]. apply ui_send, ui_init.
Defined.

(** ** Entries are independent *)

(** X13. The entry of a key depends on the tasks on that key only: calls
    of [sendMessage], for this key or another, leave it as it is, and so does
    time passing as long as no removal and no answer for this very key is
    due, whatever is removed or stored under other keys meanwhile. *)
Theorem entries_are_independent key net message systemPrompt t (w : World) :
  quiet key t (tasks w) = true →
  cacheKey systemPrompt message ≠ key →
  messageCache (sendMessage net message systemPrompt w).2 !! key
    = messageCache w !! key ∧
  messageCache (advance t (sendMessage net message systemPrompt w).2) !! key
    = messageCache w !! key.
Proof.
  intros Hq Hne.
  assert (Hc : messageCache (sendMessage net message systemPrompt w).2
               = messageCache w).
  { unfold sendMessage. simpl.
    by destruct (messageCache w !! _); [|destruct net]. }
  split; [by rewrite Hc|].
  destruct (quiet_advance key t (sendMessage net message systemPrompt w).2)
    as [-> _]; [|by rewrite Hc].
  apply quiet_spec. rewrite quiet_spec in Hq.
  unfold sendMessage. simpl.
  destruct (messageCache w !! _); [|destruct net as [l o|]]; simpl; try done.
  intros d ev [Hin|Hin]%elem_of_app Htouch; [by eapply Hq|].
  apply list_elem_of_singleton in Hin as [= -> ->]. simpl in Htouch.
  by apply bool_decide_eq_true in Htouch.
Qed.

Lemma entries_are_independent_witness :
  let answer := HttpResponse 200 (chat_completion "Hi there!") in
  let other := HttpResponse 200 (chat_completion "Fine.") in
  let w := advance 1000 (sendMessage (Settles 700 answer) "Hello" "" init).2 in
  let w' := advance 250000 (sendMessage (Settles 500 other) "How are you?" "" w).2 in
  messageCache w' !! cacheKey "" "Hello" = Some (VStr "Hi there!") ∧
  messageCache w' !! cacheKey "" "How are you?" = Some (VStr "Fine.").
Proof.
  split; [|reflexivity].
  destruct (entries_are_independent (cacheKey "" "Hello")
    (Settles 500 (HttpResponse 200 (chat_completion "Fine."))) "How are you?" ""
    250000
    (advance 1000
       (sendMessage (Settles 700 (HttpResponse 200 (chat_completion "Hi there!")))
          "Hello" "" init).2)) as [_ ->]; by vm_compute.
Defined.
